(** * youtil: filename normalisation and the download / conversion glue

    A shallow embedding of [src/youtil.py] (class [Youtil]) and the
    properties of its methods.

    - Python [str] values are sequences of Unicode code points; they are
      modelled as [list N], so that slicing counts code points as Python
      does and the two non-ASCII literals of the source (U+29F8 and
      U+2013) are single characters.
    - The string methods used by [get_new_filename] ([str.replace],
      [re.sub] on the pattern [" +"], [str.strip], [str.lower], slicing,
      [os.path.splitext], [str.join]) are modelled after CPython.
    - [convert_to_mp3], [download_video] and the two batch methods talk to
      the outside world (a shell, yt-dlp, the clock, the working
      directory).  They are embedded as programs over those four calls and
      run against an arbitrary environment. *)

From Stdlib Require Import NArith ZArith List Ascii String Bool Lia DecimalString.
From stdpp Require Import base tactics option list gmap.

(** ** Strings *)

Abbreviation char := N (only parsing).
Abbreviation str := (list N) (only parsing).

(** A string literal of the source whose characters are all ASCII. *)
Definition py (s : string) : str := map N_of_ascii (list_ascii_of_string s).

Definition SPACE : char := 32%N.
Definition DQUOTE : char := 34%N.
Definition LPAREN : char := 40%N.
Definition RPAREN : char := 41%N.
Definition COMMA : char := 44%N.
Definition HYPHEN : char := 45%N.
Definition PERIOD : char := 46%N.
Definition SLASH : char := 47%N.
Definition LBRACKET : char := 91%N.
Definition RBRACKET : char := 93%N.
(** U+29F8 BIG SOLIDUS, the character yt-dlp writes for a slash in a title. *)
Definition BIG_SOLIDUS : char := 10744%N.
(** U+2013 EN DASH. *)
Definition EN_DASH : char := 8211%N.

Module Str.

(** [s.startswith(prefix)]. *)
Fixpoint startswith (s prefix : str) {struct prefix} : bool :=
  match prefix, s with
  | [], _ => true
  | _ :: _, [] => false
  | p :: prefix', c :: s' => (c =? p)%N && startswith s' prefix'
  end.

(** [sub in s]: [sub] occurs in [s] as a contiguous substring. *)
Fixpoint contains (s sub : str) : bool :=
  startswith s sub ||
  match s with
  | [] => false
  | _ :: s' => contains s' sub
  end.

(** [c in s] for a one-character [c]. *)
Definition has (s : str) (c : char) : bool := existsb (N.eqb c) s.

(** [s.endswith(suffix)]. *)
Definition endswith (s suffix : str) : bool :=
  startswith (rev s) (rev suffix).

(** The scan of [str.replace] for a non-empty [old]: occurrences are found
    from the left and do not overlap.  [skip] counts the characters of the
    occurrence just replaced that are still to be passed over. *)
Fixpoint replace_from (old new : str) (skip : nat) (s : str) : str :=
  match s with
  | [] => []
  | c :: s' =>
      match skip with
      | S k => replace_from old new k s'
      | O =>
          if startswith s old
          then new ++ replace_from old new (length old - 1) s'
          else c :: replace_from old new 0 s'
      end
  end.

(** [s.replace(old, new)].  An empty [old] matches before every character
    and at the end of the string. *)
Definition replace (s old new : str) : str :=
  match old with
  | [] => new ++ flat_map (fun c => c :: new) s
  | _ :: _ => replace_from old new 0 s
  end.

(** [re.sub(r" +", " ", s)]: every maximal run of U+0020 becomes one
    U+0020.  All but the last space of a run are dropped. *)
Fixpoint sub_space_runs (s : str) : str :=
  match s with
  | [] => []
  | c :: s' =>
      if (c =? SPACE)%N
         && match s' with c' :: _ => (c' =? SPACE)%N | [] => false end
      then sub_space_runs s'
      else c :: sub_space_runs s'
  end.

(** [str.isspace] on one code point ([Py_UNICODE_ISSPACE]). *)
Definition isspace (c : char) : bool :=
  ((9 <=? c) && (c <=? 13) || (28 <=? c) && (c <=? 32)
   || (c =? 133) || (c =? 160) || (c =? 5760)
   || (8192 <=? c) && (c <=? 8202)
   || (c =? 8232) || (c =? 8233) || (c =? 8239) || (c =? 8287)
   || (c =? 12288))%N.

Fixpoint lstrip (s : str) : str :=
  match s with
  | [] => []
  | c :: s' => if isspace c then lstrip s' else s
  end.

Definition rstrip (s : str) : str := rev (lstrip (rev s)).

(** [s.strip()]. *)
Definition strip (s : str) : str := rstrip (lstrip s).

(** A slice bound brought into [0 .. len], as [PySlice_AdjustIndices] does
    for step 1: a negative bound counts from the end, and a bound outside
    the string is clamped, never an error. *)
Definition adjust_index (i : Z) (len : nat) : nat :=
  let n := Z.of_nat len in
  if (i <? 0)%Z then Z.to_nat (Z.max 0 (i + n)) else Z.to_nat (Z.min i n).

(** [s[:stop]]. *)
Definition slice_to (s : str) (stop : Z) : str :=
  take (adjust_index stop (length s)) s.

(** [s[start:]]. *)
Definition slice_from (s : str) (start : Z) : str :=
  drop (adjust_index start (length s)) s.

(** [s[start:stop]]. *)
Definition slice (s : str) (start stop : Z) : str :=
  drop (adjust_index start (length s)) (take (adjust_index stop (length s)) s).

(** [s.rfind(c)] for a one-character [c]: the highest index of [c], or -1. *)
Fixpoint rfind_from (s : str) (c : char) (i last : Z) : Z :=
  match s with
  | [] => last
  | x :: s' => rfind_from s' c (i + 1) (if (x =? c)%N then i else last)
  end.

Definition rfind (s : str) (c : char) : Z := rfind_from s c 0 (-1).

(** [sep.join(parts)]. *)
Fixpoint join (sep : str) (parts : list str) : str :=
  match parts with
  | [] => []
  | [p] => p
  | p :: rest => p ++ sep ++ join sep rest
  end.

End Str.

(** ** Lower-casing

    [str.lower] consults the Unicode character database of the
    interpreter.  The database is a parameter of the model: the full
    lower-case mapping of a code point and the two properties the
    Final_Sigma rule reads. *)

Record UnicodeData := {
  to_lower_full : char -> list char;
  is_cased : char -> bool;
  is_case_ignorable : char -> bool
}.

Definition is_ascii (c : char) : bool := (c <? 128)%N.

(** [Py_TOLOWER] on an ASCII code point. *)
Definition ascii_tolower (c : char) : char :=
  if ((65 <=? c) && (c <=? 90))%N then (c + 32)%N else c.

Definition CAPITAL_SIGMA : char := 931%N.
Definition FINAL_SIGMA : char := 962%N.
Definition SMALL_SIGMA : char := 963%N.

Section Lower.
Variable U : UnicodeData.

(** The first code point of [l] that is not case-ignorable. *)
Fixpoint skip_case_ignorable (l : str) : option char :=
  match l with
  | [] => None
  | c :: l' => if is_case_ignorable U c then skip_case_ignorable l' else Some c
  end.

(** [handle_capital_sigma]: U+03A3 lower-cases to the final sigma when a
    cased letter precedes it and none follows, case-ignorable characters
    aside.  [before] holds the characters to the left, nearest first. *)
Definition handle_capital_sigma (before after : str) : char :=
  let final_sigma :=
    match skip_case_ignorable before with
    | Some c => is_cased U c
    | None => false
    end in
  let final_sigma :=
    final_sigma &&
    match skip_case_ignorable after with
    | Some c => negb (is_cased U c)
    | None => true
    end in
  if final_sigma then FINAL_SIGMA else SMALL_SIGMA.

(** [do_lower]: each code point is replaced by its full lower-case
    mapping, U+03A3 by the sigma its context asks for. *)
Fixpoint do_lower (before s : str) : str :=
  match s with
  | [] => []
  | c :: s' =>
      (if (c =? CAPITAL_SIGMA)%N
       then [handle_capital_sigma before s']
       else to_lower_full U c)
      ++ do_lower (c :: before) s'
  end.

(** [s.lower()]; an all-ASCII string takes CPython's ASCII path. *)
Definition lower (s : str) : str :=
  if forallb is_ascii s then map ascii_tolower s else do_lower [] s.

End Lower.

(** The database cut down to the Basic Latin block: code points from 128
    on are left as they are and count as uncased. *)
Definition basic_latin : UnicodeData := {|
  to_lower_full c := [ascii_tolower c];
  is_cased c := ((65 <=? c) && (c <=? 90) || (97 <=? c) && (c <=? 122))%N;
  is_case_ignorable c :=
    ((c =? 39) || (c =? 46) || (c =? 58) || (c =? 94) || (c =? 96))%N
|}.

(** ** [os.path.splitext] *)

(** [genericpath._splitext]: the extension starts at the last [extsep]
    after the last separator, unless only [extsep] characters stand between
    the separator and that one (a name made of leading dots).  The loop of
    the source looks for a character other than [extsep] in
    [p[sepIndex+1:dotIndex]]. *)
Definition _splitext (p : str) (sep : char) (altsep : option char) (extsep : char)
  : str * str :=
  let sepIndex := Str.rfind p sep in
  let sepIndex :=
    match altsep with
    | Some a => Z.max sepIndex (Str.rfind p a)
    | None => sepIndex
    end in
  let dotIndex := Str.rfind p extsep in
  if (dotIndex >? sepIndex)%Z
     && existsb (fun c => negb (c =? extsep)%N) (Str.slice p (sepIndex + 1) dotIndex)
  then (Str.slice_to p dotIndex, Str.slice_from p dotIndex)
  else (p, []).

(** [posixpath.splitext]. *)
Definition splitext (p : str) : str * str := _splitext p SLASH None PERIOD.

(** ** [Youtil.get_new_filename] *)

(** The [replacements] dict; a dict is iterated in insertion order. *)
Definition replacements : list (str * str) :=
  [ (py "(Official Video)", py "");
    (py "[Official Music Video]", py "");
    (py "(Official Music Video)", py "");
    (py "(Official Live Video)", py "");
    (py " Part ", py "-");
    (py " (Interlude) ", py "-interlude-");
    (py " (Feat. ", py "-feat-");
    (py " (feat. ", py "-feat-");
    (py " feat. ", py "-feat-");
    (py " ft. ", py "-feat-");
    (py " w" ++ [BIG_SOLIDUS] ++ py " ", py "-with-");
    (py " & ", py "-and-");
    (py " + ", py "-and-") ].

(** The loop [for old_text, new_text in table: new_filename =
    new_filename.replace(old_text, new_text)]. *)
Definition apply_entries (table : list (str * str)) (filename : str) : str :=
  fold_left (fun new_filename '(old_text, new_text) =>
               Str.replace new_filename old_text new_text)
            table filename.

(** The loop over [replacements.items()]. *)
Definition apply_replacements (filename : str) : str :=
  apply_entries replacements filename.

(** "Remove extra spaces and punctuation." *)
Definition remove_spaces_and_punctuation (new_filename : str) : str :=
  let new_filename := Str.sub_space_runs new_filename in
  let new_filename := Str.strip new_filename in
  let new_filename := Str.replace new_filename (py ",") (py "-") in
  let new_filename := Str.replace new_filename (py "(") (py "") in
  let new_filename := Str.replace new_filename (py ")") (py "") in
  let new_filename := Str.replace new_filename (py "[") (py "") in
  let new_filename := Str.replace new_filename (py "]") (py "") in
  let new_filename := Str.replace new_filename (py " - ") (py "-") in
  let new_filename :=
    Str.replace new_filename ([SPACE; EN_DASH; SPACE]) (py "-") in
  Str.replace new_filename (py " ") (py "").

(** The string the head/tail split is applied to. *)
Definition cleaned (filename : str) : str :=
  remove_spaces_and_punctuation (apply_replacements filename).

Section GetNewFilename.
Variable U : UnicodeData.

(** "Fixing Youtube video code". *)
Definition fix_video_code (new_filename : str) : str :=
  Str.replace (lower U (Str.strip (Str.slice_to new_filename (-16))))
              (py " ") (py "-")
  ++ py "__"
  ++ Str.slice_from new_filename (-16).

(** The value of [new_filename] before the extension is replaced. *)
Definition reassembled (filename : str) : str :=
  fix_video_code (cleaned filename).

(** "Replace file extension with new extension determined by [fmt]". *)
Definition replace_extension (new_filename fmt : str) : str :=
  let base_filename := fst (splitext new_filename) in
  Str.join (py ".") [base_filename; fmt].

Definition get_new_filename (filename fmt : str) : str :=
  replace_extension (reassembled filename) fmt.

End GetNewFilename.

(** ** Python values, dicts and exceptions *)

(** The objects that travel through the glue code.  [VObj] stands for any
    other object (a float, say), named by the text [str()] gives for it. *)
Inductive value :=
| VNone
| VBool (b : bool)
| VInt (n : Z)
| VStr (s : str)
| VObj (repr : str).

#[global] Instance value_eq_dec : EqDecision value.
Proof. solve_decision. Defined.

(** A dict with string keys. *)
Abbreviation dict := (gmap (list N) value) (only parsing).

(** [f"{v}"]. *)
Definition format_value (v : value) : str :=
  match v with
  | VNone => py "None"
  | VBool true => py "True"
  | VBool false => py "False"
  | VInt n => py (NilEmpty.string_of_int (Z.to_int n))
  | VStr s => s
  | VObj repr => repr
  end.

Inductive exn :=
| KeyError (key : str)
| IndexError
| ExternalError (message : str).

(** [d[key]]. *)
Definition getitem (d : dict) (key : str) : exn + value :=
  match d !! key with
  | Some v => inr v
  | None => inl (KeyError key)
  end.

(** [l[0]]. *)
Definition first_item {A} (l : list A) : exn + A :=
  match l with
  | x :: _ => inr x
  | [] => inl IndexError
  end.

(** ** [get_new_filename] on arbitrary objects

    The annotations [filename: str] and [fmt: str] are not enforced: the
    method can be handed any object.  Three things in its body can raise.
    [filename] is first used as the receiver of [replace], and an object
    without that method gives [AttributeError]; every later receiver is the
    result of a string method, a slice of a string or a concatenation of
    strings, hence a string.  The subscript [[0]] on what [os.path.splitext]
    returns gives [IndexError] when out of range.  [str.join] gives
    [TypeError] for an item that is no string, and [fmt] is such an item. *)







(** ** Programs over the external collaborators *)

(** A method body: it returns, raises, or makes one of the four outside
    calls and goes on with the answer.
    - [SubprocessRun c]: [subprocess.run([c], shell=True)]; the call
      returns the completed process, of which the exit status of the shell
      is kept (it is how the encoder's outcome reaches the caller), or it
      raises: [ValueError] for a command with a null character,
      [UnicodeEncodeError] for one that cannot be encoded, [OSError] when
      the operating system refuses it.
    - [ExtractInfo opts url download]:
      [yt_dlp.YoutubeDL(opts).extract_info(url, download=download)]; the
      library may raise.
    - [DatetimeNow]: [datetime.datetime.now().timestamp()].
    - [GlobGlob pat]: [glob.glob(pat)] in the working directory. *)
Inductive prog (A : Type) : Type :=
| Return (a : A)
| Raise (e : exn)
| SubprocessRun (command : str) (k : exn + Z -> prog A)
| ExtractInfo (opts : list (str * value)) (url : str) (download : bool)
    (k : exn + option dict -> prog A)
| DatetimeNow (k : value -> prog A)
| GlobGlob (pattern : str) (k : list str -> prog A).

Arguments Return {A} a.
Arguments Raise {A} e.
Arguments SubprocessRun {A} command k.
Arguments ExtractInfo {A} opts url download k.
Arguments DatetimeNow {A} k.
Arguments GlobGlob {A} pattern k.

Fixpoint bind {A B} (m : prog A) (f : A -> prog B) : prog B :=
  match m with
  | Return a => f a
  | Raise e => Raise e
  | SubprocessRun c k => SubprocessRun c (fun r => bind (k r) f)
  | ExtractInfo o u d k => ExtractInfo o u d (fun r => bind (k r) f)
  | DatetimeNow k => DatetimeNow (fun r => bind (k r) f)
  | GlobGlob p k => GlobGlob p (fun r => bind (k r) f)
  end.

Notation "x <- m ;; f" := (bind m (fun x => f))
  (at level 100, m at next level, right associativity).

(** A fallible step lifted into a program: an error is raised. *)
Definition lift {A} (r : exn + A) : prog A :=
  match r with
  | inr a => Return a
  | inl e => Raise e
  end.

(** The outside world: a state of type [W] and the answer it gives to each
    call. *)
Record env (W : Type) := {
  subprocess_run : str -> W -> (exn + Z) * W;
  extract_info : list (str * value) -> str -> bool -> W -> (exn + option dict) * W;
  datetime_now : W -> value * W;
  glob_glob : str -> W -> list str * W
}.

Arguments subprocess_run {W} _ _ _.
Arguments extract_info {W} _ _ _ _ _.
Arguments datetime_now {W} _ _.
Arguments glob_glob {W} _ _ _.

(** What a run leaves behind: the calls made, in order. *)
Inductive call :=
| CallSubprocessRun (command : str)
| CallExtractInfo (opts : list (str * value)) (url : str) (download : bool)
| CallDatetimeNow
| CallGlobGlob (pattern : str).

Record outcome (W A : Type) := {
  result : exn + A;
  world : W;
  calls : list call
}.

Arguments result {W A} _.
Arguments world {W A} _.
Arguments calls {W A} _.

(** [run_from E m w log]: run [m] in world [w]; [log] holds the calls made
    so far. *)
Fixpoint run_from {W A} (E : env W) (m : prog A) (w : W) (log : list call)
  : outcome W A :=
  match m with
  | Return a => {| result := inr a; world := w; calls := log |}
  | Raise e => {| result := inl e; world := w; calls := log |}
  | SubprocessRun c k =>
      let '(r, w') := subprocess_run E c w in
      run_from E (k r) w' (log ++ [CallSubprocessRun c])
  | ExtractInfo o u d k =>
      let '(r, w') := extract_info E o u d w in
      run_from E (k r) w' (log ++ [CallExtractInfo o u d])
  | DatetimeNow k =>
      let '(r, w') := datetime_now E w in
      run_from E (k r) w' (log ++ [CallDatetimeNow])
  | GlobGlob p k =>
      let '(r, w') := glob_glob E p w in
      run_from E (k r) w' (log ++ [CallGlobGlob p])
  end.

Definition run {W A} (E : env W) (m : prog A) (w : W) : outcome W A :=
  run_from E m w [].

(** ** [Youtil.convert_to_mp3] and [Youtil.batch_convert_to_mp3] *)

(** The body of a [for x in xs: output.append(f(x))] loop; [output] is the
    list built so far. *)
Fixpoint for_each_append {A B} (f : A -> prog B) (xs : list A) (output : list B)
  : prog (list B) :=
  match xs with
  | [] => Return output
  | x :: xs' =>
      result <- f x ;;
      for_each_append f xs' (output ++ [result])
  end.

Section Youtil.
Variable U : UnicodeData.

(** The f-string handed to the shell. *)
Definition command_string (filename new_filename : str) : str :=
  py "ffmpeg -i " ++ [DQUOTE] ++ filename ++ [DQUOTE]
  ++ py " -vn -ab 128k -ar 44100 -y " ++ [DQUOTE] ++ new_filename ++ [DQUOTE].

Definition convert_to_mp3 (filename : str) : prog dict :=
  let new_filename := get_new_filename U filename (py "mp3") in
  let successfully_converted := true in
  let error_code := VNone in
  SubprocessRun (command_string filename new_filename) (fun r =>
  completed <- lift r ;;
  Return (<[py "original_filename" := VStr filename]>
          (<[py "new_filename" := VStr new_filename]>
           (<[py "successfully_converted" := VBool successfully_converted]>
            (<[py "error_code" := error_code]> ∅))))).

Definition batch_convert_to_mp3 (filename_list : list str) : prog (list dict) :=
  for_each_append convert_to_mp3 filename_list [].

End Youtil.

(** ** [Youtil.download_video] and [Youtil.batch_download_video] *)

Definition yd_opts : list (str * value) :=
  [ (py "format", VStr (py "best")); (py "get_info", VBool true) ].

(** [if video_info:] — [None] and the empty dict are false. *)
Definition truthy (video_info : option dict) : bool :=
  match video_info with
  | None => false
  | Some d => bool_decide (d ≠ ∅)
  end.

Definition download_video (url : str) : prog dict :=
  ExtractInfo yd_opts url true (fun r =>
  video_info <- lift r ;;
  DatetimeNow (fun timestamp =>
  match video_info with
  | Some info =>
      if truthy video_info then
        youtube_id <- lift (getitem info (py "id")) ;;
        let filename_search_string :=
          py "*" ++ format_value youtube_id ++ py "*" in
        GlobGlob filename_search_string (fun matches =>
        filename <- lift (first_item matches) ;;
        filesize <- lift (getitem info (py "filesize_approx")) ;;
        title <- lift (getitem info (py "title")) ;;
        fulltitle <- lift (getitem info (py "fulltitle")) ;;
        duration <- lift (getitem info (py "duration")) ;;
        Return (<[py "url" := VStr url]>
                (<[py "filename" := VStr filename]>
                 (<[py "filesize" := filesize]>
                  (<[py "title" := title]>
                   (<[py "fulltitle" := fulltitle]>
                    (<[py "youtube_id" := youtube_id]>
                     (<[py "duration" := duration]>
                      (<[py "timestamp" := timestamp]> ∅)))))))))
      else Return ∅
  | None => Return ∅
  end)).

Definition batch_download_video (url_list : list str) : prog (list dict) :=
  for_each_append download_video url_list [].

(** * Vocabulary of the properties *)

(** No occurrence of [old] that starts in [a] reaches into [b]. *)
Definition no_straddle (old a b : str) : Prop :=
  forall a1 a2, a = a1 ++ a2 ->
    Str.startswith (a2 ++ b) old = true -> Str.startswith a2 old = true.

(** Every period of [k] is followed by a space. *)
Fixpoint period_guarded (k : str) : bool :=
  match k with
  | [] => true
  | c :: k' =>
      (negb (c =? PERIOD)%N
       || match k' with c' :: _ => (c' =? SPACE)%N | [] => false end)
      && period_guarded k'
  end.

(** [s] is some text, a period, and an extension of at most [n] characters
    with no period, slash or space in it. *)
Definition has_extension (s : str) (n : nat) : Prop :=
  exists root ext,
    s = root ++ PERIOD :: ext /\
    ~ In PERIOD ext /\ ~ In SLASH ext /\ ~ In SPACE ext /\ length ext <= n.

(** [n] is empty, or starts and ends with a hyphen. *)
Definition hyphen_bounded (n : str) : bool :=
  match n, rev n with
  | c :: _, c' :: _ => (c =? HYPHEN)%N && (c' =? HYPHEN)%N
  | _, _ => true
  end.

(** The shape of a table entry: the phrase has a space and no hyphen; the
    replacement has no space, is empty or hyphen-bounded, and when it is not
    empty the phrase starts with a space. *)
Definition entry_shape (entry : str * str) : bool :=
  let '(old, new) := entry in
  Str.has old SPACE && negb (Str.has old HYPHEN)
  && negb (Str.has new SPACE) && hyphen_bounded new
  && match new, old with
     | [], _ => true
     | _ :: _, c :: _ => (c =? SPACE)%N
     | _ :: _, [] => false
     end.

(** The phrases of the replacement table. *)
Definition phrases : list str := map fst replacements.

(** The characters [get_new_filename] is meant to clear away. *)
Definition unfriendly : list char :=
  [SPACE; COMMA; LPAREN; RPAREN; LBRACKET; RBRACKET].

(** [s] has none of the characters of [cs]. *)
Definition free_of (cs : list char) (s : str) : bool :=
  forallb (fun c => negb (Str.has s c)) cs.

(** What the properties ask of the character database: lower-casing a code
    point brings in no ASCII character other than a lower-case letter.
    (In Unicode the only ASCII results from a non-ASCII code point are [i]
    from U+0130 and [k] from U+212A.) *)
Definition lower_case_sound (U : UnicodeData) : Prop :=
  forall c x, In x (to_lower_full U c) -> (x < 128)%N ->
    x = c \/ (97 <= x <= 122)%N.

(** Everything before the final period of [s], when it has one. *)
Definition before_last_period (s : str) : option str :=
  let i := Str.rfind s PERIOD in
  if (i <? 0)%Z then None else Some (Str.slice_to s i).

(** The thread of worlds through single runs of [f], one per element of
    [xs] in order, each returning the element of [out] at its place. *)
Inductive each_returns {W A B} (E : env W) (f : A -> prog B)
  : list A -> W -> list B -> W -> Prop :=
| each_nil w : each_returns E f [] w [] w
| each_cons x xs w r out w' :
    result (run E (f x) w) = inr r ->
    each_returns E f xs (world (run E (f x) w)) out w' ->
    each_returns E f (x :: xs) w (r :: out) w'.

(** Every shell call returns, with whatever exit status: [subprocess.run]
    does not raise. *)
Definition shell_returns {W} (E : env W) : Prop :=
  forall command w, exists status : Z, fst (subprocess_run E command w) = inr status.

(** The name of the spec's concrete scenario, and a name as yt-dlp writes
    it ([title [id].ext]) with two connective phrases. *)
Definition scenario_name : str :=
  py "Artist Name - Song Title (Official Video) [Official Music Video]_UYIAfiVGluk123.webm".

Definition ytdlp_name : str :=
  py "Artist feat. Other - Song & Dance (Official Video) [UYIAfiVGluk].webm".

(** The eight keys of a download record. *)
Definition download_keys : gset (list N) :=
  list_to_set [ py "url"; py "filename"; py "filesize"; py "title";
                py "fulltitle"; py "youtube_id"; py "duration"; py "timestamp" ].

(** The error codes the docstring of [convert_to_mp3] lists. *)
Definition documented_error_codes : list str :=
  [ py "CONVERTED_FILE_PATH_ALREADY_EXISTS";
    py "SOURCE_FILE_DOES_NOT_EXIST";
    py "FILESYSTEM_ERROR" ].

(** Metadata as yt-dlp may return it: an id and titles, no
    [filesize_approx]. *)
Definition metadata_without_filesize : gmap (list N) value :=
  <[py "id" := VStr (py "UYIAfiVGluk")]>
  (<[py "title" := VStr (py "Song")]>
   (<[py "fulltitle" := VStr (py "Song")]>
    (<[py "duration" := VInt 215]> ∅))).

Definition full_metadata : gmap (list N) value :=
  <[py "filesize_approx" := VInt 3500000]> metadata_without_filesize.

(** A world without state in which yt-dlp answers [info] to every URL,
    every shell call returns with the exit status [status], the clock reads
    [stamp] and the working directory holds [files] for every pattern. *)
Definition fixed_env (info : option (gmap (list N) value)) (status : Z) (stamp : value)
    (files : list str) : env unit := {|
  subprocess_run _ w := (inr status, w);
  extract_info _ _ _ w := (inr info, w);
  datetime_now w := (stamp, w);
  glob_glob _ w := (files, w)
|}.


(** A world in which [subprocess.run] does what it does with a null
    character in the command: it raises [ValueError] before any shell is
    started.  Every other command exits with status 0. *)
Definition null_checking_env : env unit := {|
  subprocess_run command w :=
    (if Str.has command 0%N
     then inl (ExternalError (py "ValueError")) else inr 0%Z, w);
  extract_info _ _ _ w := (inr None, w);
  datetime_now w := (VNone, w);
  glob_glob _ w := ([], w)
|}.

(** A filename with a null character in it. *)
Definition null_name : str := py "a" ++ [0%N] ++ py "b [UYIAfiVGluk].webm".

(** ** The script at the end of the file *)

(** The URL the [__main__] block downloads. *)
Definition main_url : str := py "https://www.youtube.com/watch?v=UYIAfiVGluk".

(** What a run of the script leaves: the objects it printed, the value of
    [convert_output] or the error that ended it, the world, and the calls
    made. *)
Record script_outcome (W : Type) := {
  printed : list dict;
  ended : exn + dict;
  world_left : W;
  calls_made : list call
}.

Arguments printed {W} _.
Arguments ended {W} _.
Arguments world_left {W} _.
Arguments calls_made {W} _.

(** The [__main__] block: download [main_url], print the record, convert
    [download_output["filename"]], print the record of the conversion.
    [print] is given the dict; its text is not modelled.  A value that is
    no string has no [replace] method, and [get_new_filename] would stop at
    its first call of it. *)
Definition main {W} (U : UnicodeData) (E : env W) (w : W) : script_outcome W :=
  let download := run E (download_video main_url) w in
  match result download with
  | inl e =>
      {| printed := []; ended := inl e;
         world_left := world download; calls_made := calls download |}
  | inr download_output =>
      match getitem download_output (py "filename") with
      | inl e =>
          {| printed := [download_output]; ended := inl e;
             world_left := world download; calls_made := calls download |}
      | inr (VStr filename) =>
          let convert :=
            run_from E (convert_to_mp3 U filename) (world download) (calls download) in
          {| printed :=
               match result convert with
               | inr convert_output => [download_output; convert_output]
               | inl _ => [download_output]
               end;
             ended := result convert;
             world_left := world convert; calls_made := calls convert |}
      | inr _ =>
          {| printed := [download_output];
             ended := inl (ExternalError (py "AttributeError"));
             world_left := world download; calls_made := calls download |}
      end
  end.

(** The shell call of [convert_to_mp3] on [filename]. *)
Definition conversion_call (U : UnicodeData) (filename : str) : call :=
  CallSubprocessRun (command_string filename (get_new_filename U filename (py "mp3"))).

(** [c] is a request to yt-dlp for [url]. *)
Definition requests (url : str) (c : call) : Prop :=
  exists opts download, c = CallExtractInfo opts url download.

(** A world that counts the requests made to yt-dlp: every request is
    answered with [full_metadata], and the working directory holds the
    downloaded file for the first request only. *)
Definition one_file_env : env nat := {|
  subprocess_run _ n := (inr 0%Z, n);
  extract_info _ _ _ n := (inr (Some full_metadata), S n);
  datetime_now n := (VObj (py "1730700000.0"), n);
  glob_glob _ n := (if n <=? 1 then [py "Song [UYIAfiVGluk].webm"] else [], n)
|}.

(** ** Vocabulary of the further properties *)

Definition UNDERSCORE : char := 95%N.

(** Every part of [k] from an occurrence of [c0] to its end has a space. *)
Fixpoint guarded (c0 : char) (k : str) : bool :=
  match k with
  | [] => true
  | c :: k' => (negb (c =? c0)%N || Str.has k SPACE) && guarded c0 k'
  end.

(** The last character of [k] is [c]. *)
Fixpoint ends_with (c : char) (k : str) : bool :=
  match k with
  | [] => false
  | [x] => (x =? c)%N
  | _ :: k' => ends_with c k'
  end.

(** The characters of a video id or of an extension: no white space, comma,
    parenthesis, square bracket, period or slash. *)
Definition id_safe (s : str) : bool :=
  forallb (fun c => negb (Str.isspace c) && negb (Str.has (py ",()[]./") c)) s.

(** Behind its last slash, [root] has a character other than a period. *)
Definition has_name_char (root : str) : bool :=
  existsb (fun c => negb (c =? PERIOD)%N)
          (drop (Z.to_nat (Str.rfind root SLASH + 1)) root).

(** An ASCII character the normaliser may bring in by itself: a
    lower-case letter, a hyphen, an underscore or a period. *)
Definition brought_in (x : char) : bool :=
  ((97 <=? x) && (x <=? 122) || (x =? HYPHEN) || (x =? UNDERSCORE) || (x =? PERIOD))%N.

(** ** Vocabulary of the replacement's way to the result *)

(** A text of lower-case ASCII letters and hyphens, as the replacements of
    the table are. *)
Definition plain (r : str) : bool :=
  forallb (fun c => ((97 <=? c) && (c <=? 122) || (c =? HYPHEN))%N) r.

(** Lower-casing leaves a lower-case ASCII letter and a hyphen as they
    are, as it does in Unicode. *)
Definition lower_fixes_plain (U : UnicodeData) : Prop :=
  forall c, plain [c] = true -> to_lower_full U c = [c].

(** What the clean-up makes of the text in front of a bracketed id: the
    steps of [remove_spaces_and_punctuation], except that nothing is
    stripped at the right, where the id follows. *)
Definition cleaned_title (title : str) : str :=
  let new_filename := Str.sub_space_runs title in
  let new_filename := Str.lstrip new_filename in
  let new_filename := Str.replace new_filename (py ",") (py "-") in
  let new_filename := Str.replace new_filename (py "(") (py "") in
  let new_filename := Str.replace new_filename (py ")") (py "") in
  let new_filename := Str.replace new_filename (py "[") (py "") in
  let new_filename := Str.replace new_filename (py "]") (py "") in
  let new_filename := Str.replace new_filename (py " - ") (py "-") in
  let new_filename :=
    Str.replace new_filename ([SPACE; EN_DASH; SPACE]) (py "-") in
  Str.replace new_filename (py " ") (py "").

(** The title of [ytdlp_name]: what stands before the bracketed id. *)
Definition ytdlp_title : str :=
  py "Artist feat. Other - Song & Dance (Official Video) ".

(** * Properties *)

(** ** The string model on small inputs

    Each value below is what CPython 3 gives for the same call. *)

Example replace_leftmost_first :
  Str.replace (py "aaa") (py "aa") (py "b") = py "ba".
Proof. reflexivity. Qed.

Example replace_empty_pattern :
  Str.replace (py "abc") (py "") (py "-") = py "-a-b-c-".
Proof. reflexivity. Qed.

Example replace_single_pass :
  Str.replace (py "x(Official(Official Video) Video)y") (py "(Official Video)") (py "")
  = py "x(Official Video)y".
Proof. reflexivity. Qed.

Example sub_space_runs_example :
  Str.sub_space_runs (py "a   b  c ") = py "a b c ".
Proof. reflexivity. Qed.

Example strip_example :
  Str.strip ([SPACE; 9%N; SPACE] ++ py "a b" ++ [SPACE; 10%N]) = py "a b".
Proof. reflexivity. Qed.

Example slice_short_example :
  Str.slice_to (py "abcdef") (-16) = py ""
  /\ Str.slice_from (py "abcdef") (-16) = py "abcdef".
Proof. split; reflexivity. Qed.

Example slice_long_example :
  Str.slice_to (py "abcdefghijklmnopqrst") (-16) = py "abcd"
  /\ Str.slice_from (py "abcdefghijklmnopqrst") (-16) = py "efghijklmnopqrst".
Proof. split; reflexivity. Qed.

Example rfind_example :
  Str.rfind (py "a.b.c") PERIOD = 3%Z /\ Str.rfind (py "abc") PERIOD = (-1)%Z.
Proof. split; reflexivity. Qed.

Example splitext_examples :
  splitext (py "a.b.c") = (py "a.b", py ".c")
  /\ splitext (py ".bashrc") = (py ".bashrc", py "")
  /\ splitext (py "dir.d/file") = (py "dir.d/file", py "")
  /\ splitext (py "a/.b") = (py "a/.b", py "")
  /\ splitext (py "..a") = (py "..a", py "")
  /\ splitext (py "name.") = (py "name", py ".").
Proof. repeat split; reflexivity. Qed.

Example lower_ascii_example (U : UnicodeData) :
  lower U (py "Hello World.MP3") = py "hello world.mp3".
Proof. reflexivity. Qed.

Example format_value_examples :
  py "*" ++ format_value (VStr (py "UYIAfiVGluk")) ++ py "*" = py "*UYIAfiVGluk*"
  /\ format_value VNone ++ format_value (VBool true) ++ format_value (VInt (-12))
     = py "NoneTrue-12".
Proof. split; reflexivity. Qed.

Example get_new_filename_examples (U : UnicodeData) :
  get_new_filename U (py "A feat. B & C, Part 2 [UYIAfiVGluk].webm") (py "mp3")
  = py "a-feat-b-and-c--2__UYIAfiVGluk.mp3"
  /\ get_new_filename U (py "short.x") (py "mp3") = py "__short.mp3"
  /\ get_new_filename U (py "") (py "mp3") = py "__.mp3".
Proof. repeat split; vm_compute; reflexivity. Qed.

(** ** Strings: prefixes and occurrences *)

Module StrFacts.
Import Str.

Lemma has_In (s : str) (c : char) : has s c = true <-> In c s.
Proof.
  unfold has. rewrite existsb_exists. split.
  - intros (x & Hx & Heq). apply N.eqb_eq in Heq. now subst.
  - intros H. exists c. split; [assumption | apply N.eqb_refl].
Qed.

Lemma has_false (s : str) (c : char) : has s c = false <-> ~ In c s.
Proof.
  rewrite <- has_In. destruct (has s c); split; congruence.
Qed.

Lemma startswith_spec (s k : str) :
  startswith s k = true <-> exists r, s = k ++ r.
Proof.
  revert s. induction k as [|p k IH]; intros s; simpl.
  - split; [intros _; now exists s | reflexivity].
  - destruct s as [|c s]; simpl.
    + split; [discriminate | intros (r & Hr); discriminate].
    + rewrite andb_true_iff, N.eqb_eq, IH. split.
      * intros (-> & r & ->). now exists r.
      * intros (r & Hr). injection Hr as -> ->. split; [reflexivity | now exists r].
Qed.

Lemma startswith_app (k r : str) : startswith (k ++ r) k = true.
Proof. apply startswith_spec. now exists r. Qed.

Lemma startswith_app_l (a b k : str) :
  startswith a k = true -> startswith (a ++ b) k = true.
Proof.
  rewrite !startswith_spec. intros (r & ->). exists (r ++ b).
  now rewrite app_assoc.
Qed.

Lemma startswith_length (s k : str) :
  startswith s k = true -> length k <= length s.
Proof.
  rewrite startswith_spec. intros (r & ->). rewrite length_app. lia.
Qed.

Lemma contains_spec (s k : str) :
  contains s k = true <-> exists a b, s = a ++ k ++ b.
Proof.
  induction s as [|c s IH]; simpl.
  - rewrite orb_false_r, startswith_spec. split.
    + intros (r & Hr). now exists [], r.
    + intros (a & b & H). destruct a; simpl in H.
      * now exists b.
      * discriminate.
  - rewrite orb_true_iff, startswith_spec, IH. split.
    + intros [(r & ->) | (a & b & ->)].
      * now exists [], r.
      * now exists (c :: a), b.
    + intros (a & b & H). destruct a as [|x a]; simpl in H.
      * left. now exists b.
      * right. injection H as -> ->. now exists a, b.
Qed.

Lemma contains_cons_false (c : char) (s k : str) :
  contains (c :: s) k = false ->
  startswith (c :: s) k = false /\ contains s k = false.
Proof. simpl. now rewrite orb_false_iff. Qed.

(** A pattern with a character the string lacks does not occur in it. *)
Lemma contains_lacking (s k : str) (x : char) :
  In x k -> ~ In x s -> contains s k = false.
Proof.
  intros Hk Hs. destruct (contains s k) eqn:E; [|reflexivity].
  apply contains_spec in E as (a & b & ->). exfalso. apply Hs.
  rewrite !in_app_iff. auto.
Qed.

(** ** [str.replace] *)

Lemma replace_from_absent (old new s : str) :
  contains s old = false -> replace_from old new 0 s = s.
Proof.
  induction s as [|c s IH]; [reflexivity|].
  intros H. apply contains_cons_false in H as [H1 H2].
  cbn [replace_from]. rewrite H1. f_equal. now apply IH.
Qed.

(** A string in which [old] does not occur is left as it is. *)
Lemma replace_absent (s old new : str) :
  contains s old = false -> replace s old new = s.
Proof.
  destruct old as [|o old].
  - intros H. destruct s; discriminate H.
  - apply replace_from_absent.
Qed.

Lemma no_straddle_tail old c a b : no_straddle old (c :: a) b -> no_straddle old a b.
Proof. intros H a1 a2 ->. apply (H (c :: a1) a2). reflexivity. Qed.

Lemma replace_from_boundary (old new a b : str) (skip : nat) :
  no_straddle old a b -> skip <= length a ->
  replace_from old new skip (a ++ b)
  = replace_from old new skip a ++ replace_from old new 0 b.
Proof.
  revert skip. induction a as [|c a IH]; intros skip Hns Hskip.
  - simpl in Hskip. now replace skip with 0 by lia.
  - pose proof (no_straddle_tail _ _ _ _ Hns) as Hns'.
    simpl in Hskip. destruct skip as [|n].
    + cbn [app replace_from].
      destruct (startswith (c :: a ++ b) old) eqn:E.
      * pose proof (Hns [] (c :: a) eq_refl E) as E'. rewrite E'.
        apply startswith_length in E'. simpl in E'.
        rewrite IH by (assumption || lia). now rewrite app_assoc.
      * destruct (startswith (c :: a) old) eqn:E'.
        -- apply (startswith_app_l _ b) in E'. simpl in E'. congruence.
        -- rewrite IH by (assumption || lia). reflexivity.
    + cbn [app replace_from]. apply IH; [assumption | lia].
Qed.

(** An occurrence cannot run across a character the pattern lacks. *)
Lemma no_straddle_lacking (old a b : str) (c : char) :
  ~ In c old -> no_straddle old a (c :: b).
Proof.
  intros Hc a1 a2 _. clear a1 a. revert old Hc.
  induction a2 as [|x a2 IH]; intros old Hc H.
  - destruct old as [|o old]; [reflexivity|]. simpl in H.
    apply andb_true_iff in H as [H _]. apply N.eqb_eq in H. subst.
    exfalso. apply Hc. now left.
  - destruct old as [|o old]; [reflexivity|]. simpl in *.
    apply andb_true_iff in H as [H1 H2]. rewrite H1. simpl.
    apply IH; [|assumption]. intros Hin. apply Hc. now right.
Qed.

(** [str.replace] works on each side of such a character separately. *)
Lemma replace_from_split (old new a b : str) (c : char) :
  ~ In c old -> old <> [] ->
  replace_from old new 0 (a ++ c :: b)
  = replace_from old new 0 a ++ c :: replace_from old new 0 b.
Proof.
  intros Hc Hne.
  rewrite replace_from_boundary by (auto using no_straddle_lacking || lia).
  f_equal. cbn [replace_from].
  destruct (startswith (c :: b) old) eqn:E; [|reflexivity].
  destruct old as [|o old]; [congruence|]. simpl in E.
  apply andb_true_iff in E as [E _]. apply N.eqb_eq in E. subst.
  exfalso. apply Hc. now left.
Qed.

(** Replacing a single character works character by character. *)
Lemma replace_char (s new : str) (c : char) :
  replace s [c] new = flat_map (fun x => if (x =? c)%N then new else [x]) s.
Proof.
  unfold replace. induction s as [|x s IH]; [reflexivity|].
  cbn [replace_from flat_map startswith length]. rewrite andb_true_r.
  simpl. destruct (x =? c)%N; now rewrite IH.
Qed.

Lemma replace_from_In (old new s : str) (skip : nat) (x : char) :
  In x (replace_from old new skip s) -> In x s \/ In x new.
Proof.
  revert skip. induction s as [|c s IH]; intros skip; [simpl; tauto|].
  cbn [replace_from]. destruct skip as [|n].
  - destruct (startswith (c :: s) old).
    + rewrite in_app_iff. intros [H | H]; [now right|].
      apply IH in H as [H | H]; [left; now right | now right].
    + intros [-> | H]; [left; now left|].
      apply IH in H as [H | H]; [left; now right | now right].
  - intros H. apply IH in H as [H | H]; [left; now right | now right].
Qed.

(** The characters of [s.replace(old, new)] come from [s] or from [new]. *)
Lemma replace_In (s old new : str) (x : char) :
  In x (replace s old new) -> In x s \/ In x new.
Proof.
  destruct old as [|o old]; [|apply replace_from_In].
  unfold replace. rewrite in_app_iff, in_flat_map.
  intros [H | (y & Hy & [-> | H])]; auto.
Qed.

(** After a one-character replacement the character is gone, unless the
    replacement text brings it back. *)
Lemma replace_char_gone (s new : str) (c : char) :
  ~ In c new -> ~ In c (replace s [c] new).
Proof.
  intros Hnew. rewrite replace_char, in_flat_map. intros (x & _ & Hx).
  destruct (x =? c)%N eqn:E; [contradiction|].
  destruct Hx as [-> | []]. now rewrite N.eqb_refl in E.
Qed.

Lemma replace_keeps_absent (s old new : str) (c : char) :
  ~ In c s -> ~ In c new -> ~ In c (replace s old new).
Proof. intros Hs Hn H. apply replace_In in H. tauto. Qed.

(** ** [str.strip] and slices *)

Lemma lstrip_In (s : str) (x : char) : In x (lstrip s) -> In x s.
Proof.
  induction s as [|c s IH]; simpl; [tauto|].
  destruct (isspace c); simpl; auto.
Qed.

Lemma strip_In (s : str) (x : char) : In x (strip s) -> In x s.
Proof.
  unfold strip, rstrip. rewrite <- in_rev. intros H.
  apply lstrip_In in H. rewrite <- in_rev in H. now apply lstrip_In.
Qed.

Lemma adjust_index_neg (n len : nat) :
  0 < n -> adjust_index (- Z.of_nat n) len = len - n.
Proof.
  intros Hn. unfold adjust_index.
  destruct (Z.ltb_spec (- Z.of_nat n) 0); lia.
Qed.

Lemma adjust_index_nonneg (i : Z) (len : nat) :
  (0 <= i <= Z.of_nat len)%Z -> adjust_index i len = Z.to_nat i.
Proof.
  intros Hi. unfold adjust_index.
  destruct (Z.ltb_spec i 0); lia.
Qed.

(** A slice point cuts the string in two, wherever it falls. *)
Lemma slice_to_from (s : str) (i : Z) : slice_to s i ++ slice_from s i = s.
Proof. apply firstn_skipn. Qed.

Lemma slice_to_In (s : str) (i : Z) (x : char) : In x (slice_to s i) -> In x s.
Proof. intros H. rewrite <- (slice_to_from s i), in_app_iff. now left. Qed.

Lemma slice_from_In (s : str) (i : Z) (x : char) : In x (slice_from s i) -> In x s.
Proof. intros H. rewrite <- (slice_to_from s i), in_app_iff. now right. Qed.

Lemma slice_to_last (s : str) (n : nat) :
  0 < n -> slice_to s (- Z.of_nat n) = take (length s - n) s.
Proof. intros Hn. unfold slice_to. now rewrite adjust_index_neg. Qed.

Lemma slice_from_last (s : str) (n : nat) :
  0 < n -> slice_from s (- Z.of_nat n) = drop (length s - n) s.
Proof. intros Hn. unfold slice_from. now rewrite adjust_index_neg. Qed.

Lemma slice_from_last_length (s : str) (n : nat) :
  0 < n -> n <= length s -> length (slice_from s (- Z.of_nat n)) = n.
Proof.
  intros Hn Hlen. rewrite slice_from_last by assumption.
  rewrite length_skipn. lia.
Qed.



(** ** [str.rfind] *)

Lemma rfind_from_app (a b : str) (c : char) (i last : Z) :
  rfind_from (a ++ b) c i last
  = rfind_from b c (i + Z.of_nat (length a)) (rfind_from a c i last).
Proof.
  revert i last. induction a as [|x a IH]; intros i last; simpl.
  - f_equal. lia.
  - rewrite IH. f_equal. lia.
Qed.

Lemma rfind_from_absent (s : str) (c : char) (i last : Z) :
  ~ In c s -> rfind_from s c i last = last.
Proof.
  revert i last. induction s as [|x s IH]; intros i last H; [reflexivity|].
  simpl. destruct (N.eqb_spec x c) as [->|Hne].
  - exfalso. apply H. now left.
  - apply IH. intros Hin. apply H. now right.
Qed.

Lemma rfind_from_range (s : str) (c : char) (i last : Z) :
  (last < i)%Z ->
  (last <= rfind_from s c i last < i + Z.of_nat (length s))%Z.
Proof.
  revert i last. induction s as [|x s IH]; intros i last H; simpl; [lia|].
  destruct (x =? c)%N.
  - specialize (IH (i + 1)%Z i). lia.
  - specialize (IH (i + 1)%Z last). lia.
Qed.

Lemma rfind_range (s : str) (c : char) :
  (-1 <= rfind s c < Z.of_nat (length s))%Z.
Proof. unfold rfind. pose proof (rfind_from_range s c 0 (-1)). lia. Qed.

(** The last occurrence: [c] stands at [length a] and nowhere after. *)
Lemma rfind_last (a b : str) (c : char) :
  ~ In c b -> rfind (a ++ c :: b) c = Z.of_nat (length a).
Proof.
  intros H. unfold rfind. rewrite rfind_from_app. simpl.
  rewrite N.eqb_refl. now rewrite rfind_from_absent.
Qed.

Lemma rfind_app_absent (a b : str) (c : char) :
  ~ In c b -> rfind (a ++ b) c = rfind a c.
Proof.
  intros H. unfold rfind. rewrite rfind_from_app. now apply rfind_from_absent.
Qed.

End StrFacts.

(** ** The normaliser, step by step *)

Import Str StrFacts.

Lemma free_of_spec (cs : list char) (s : str) :
  free_of cs s = true <-> forall c, In c cs -> ~ In c s.
Proof.
  unfold free_of. rewrite forallb_forall. split; intros H c Hc.
  - apply has_false. specialize (H c Hc). now apply negb_true_iff in H.
  - apply negb_true_iff, has_false. now apply H.
Qed.

Lemma endswith_app (a b : str) : endswith (a ++ b) b = true.
Proof. unfold endswith. rewrite rev_app_distr. apply startswith_app. Qed.

Lemma ascii_tolower_In (s : str) (x : char) :
  In x (map ascii_tolower s) -> ~ (97 <= x <= 122)%N -> In x s.
Proof.
  rewrite in_map_iff. intros (c & <- & Hc) Hx.
  unfold ascii_tolower in *.
  destruct (N.leb_spec 65 c), (N.leb_spec c 90); simpl in *; try assumption.
  exfalso. apply Hx. lia.
Qed.

Lemma do_lower_In (U : UnicodeData) (before s : str) (x : char) :
  lower_case_sound U ->
  In x (do_lower U before s) -> (x < 128)%N -> ~ (97 <= x <= 122)%N -> In x s.
Proof.
  intros HU. revert before. induction s as [|c s IH]; intros before; simpl; [tauto|].
  rewrite in_app_iff. intros [H | H] Hlt Hx.
  - destruct (c =? CAPITAL_SIGMA)%N.
    + destruct H as [<- | []]. exfalso. revert Hlt.
      unfold handle_capital_sigma, FINAL_SIGMA, SMALL_SIGMA.
      repeat match goal with |- context [if ?b then _ else _] => destruct b end; lia.
    + destruct (HU c x H Hlt) as [-> | Hl]; [now left | contradiction].
  - right. now apply (IH (c :: before)).
Qed.

(** An ASCII character of [s.lower()] that is no lower-case letter was in
    [s] already. *)
Lemma lower_In (U : UnicodeData) (s : str) (x : char) :
  lower_case_sound U ->
  In x (lower U s) -> (x < 128)%N -> ~ (97 <= x <= 122)%N -> In x s.
Proof.
  intros HU. unfold lower. destruct (forallb is_ascii s).
  - intros H _ Hx. now apply ascii_tolower_In.
  - now apply do_lower_In.
Qed.

Lemma splitext_root_In (p : str) (x : char) : In x (fst (splitext p)) -> In x p.
Proof.
  unfold splitext, _splitext.
  match goal with |- context [if ?b then _ else _] => destruct b end; simpl.
  - apply slice_to_In.
  - tauto.
Qed.

Lemma replace_extension_eq (p fmt : str) :
  replace_extension p fmt = fst (splitext p) ++ PERIOD :: fmt.
Proof. reflexivity. Qed.

(** The cleanup leaves none of the characters it is after. *)
Lemma remove_spaces_and_punctuation_free (s : str) :
  free_of unfriendly (remove_spaces_and_punctuation s) = true.
Proof.
  apply free_of_spec. intros c Hc. unfold remove_spaces_and_punctuation.
  cbv zeta.
  change (py " ") with [SPACE]. change (py ",") with [COMMA].
  change (py "(") with [LPAREN]. change (py ")") with [RPAREN].
  change (py "[") with [LBRACKET]. change (py "]") with [RBRACKET].
  change (py "-") with [HYPHEN]. change (py "") with (@nil N).
  change (py " - ") with [SPACE; HYPHEN; SPACE].
  repeat (destruct Hc as [<- | Hc]); try contradiction;
    repeat first
      [ apply replace_char_gone; compute; intuition discriminate
      | apply replace_keeps_absent; [| compute; intuition discriminate] ].
Qed.

Lemma cleaned_free (filename : str) : free_of unfriendly (cleaned filename) = true.
Proof. apply remove_spaces_and_punctuation_free. Qed.

Lemma cleaned_no_space (filename : str) : ~ In SPACE (cleaned filename).
Proof.
  apply (proj1 (free_of_spec _ _) (cleaned_free filename)). now left.
Qed.

(** A string in which no table phrase occurs passes through the table
    unchanged. *)
Lemma apply_replacements_absent (s : str) :
  forallb (fun old => negb (contains s old)) phrases = true ->
  apply_replacements s = s.
Proof.
  unfold apply_replacements, apply_entries, phrases.
  induction replacements as [|[old new] table IH]; simpl; [reflexivity|].
  intros H. apply andb_true_iff in H as [H1 H2].
  apply negb_true_iff in H1. rewrite replace_absent by assumption. now apply IH.
Qed.

(** The head/tail split of "Fixing Youtube video code". *)
Lemma fix_video_code_long (U : UnicodeData) (s : str) :
  16 <= length s ->
  exists head tail,
    s = head ++ tail /\ length tail = 16 /\
    fix_video_code U s
    = replace (lower U (strip head)) (py " ") (py "-") ++ py "__" ++ tail.
Proof.
  intros Hlen. exists (slice_to s (-16)), (slice_from s (-16)).
  split; [symmetry; apply slice_to_from|]. split; [|reflexivity].
  now apply (slice_from_last_length s 16); [lia|].
Qed.


(** With a sound database, a head free of spaces stays free of them when
    lower-cased, so the hyphenation that follows finds nothing to do. *)
Lemma hyphenate_lower_inert (U : UnicodeData) (head : str) :
  lower_case_sound U -> ~ In SPACE head ->
  replace (lower U head) (py " ") (py "-") = lower U head.
Proof.
  intros HU Hhead. apply replace_absent.
  apply (contains_lacking _ _ SPACE); [now left|].
  intros H. apply Hhead. apply (lower_In U); try assumption; compute; try reflexivity.
  intros [H1 H2]. now apply H1.
Qed.

(** ** The extension through the normaliser *)

Lemma no_straddle_period (k a e : str) :
  period_guarded k = true -> ~ In SPACE e -> no_straddle k a (PERIOD :: e).
Proof.
  intros Hk He a1 a2 _. clear a1 a. revert k Hk.
  induction a2 as [|x a2 IH]; intros k Hk H.
  - destruct k as [|c k]; [reflexivity|]. exfalso.
    cbn [app startswith period_guarded] in H, Hk.
    apply andb_true_iff in H as [H1 H2].
    apply N.eqb_eq in H1. subst c. rewrite N.eqb_refl in Hk.
    destruct k as [|c' k]; [discriminate|].
    apply andb_true_iff in Hk as [Hk _]. apply N.eqb_eq in Hk. subst c'.
    destruct e as [|y e]; [discriminate|]. cbn [startswith] in H2.
    apply andb_true_iff in H2 as [H2 _]. apply N.eqb_eq in H2. subst y.
    apply He. now left.
  - destruct k as [|c k]; [reflexivity|].
    cbn [app startswith period_guarded] in H, Hk |- *.
    apply andb_true_iff in H as [H1 H2].
    apply andb_true_iff in Hk as [_ Hk]. rewrite H1. cbn [andb]. now apply IH.
Qed.

(** A phrase whose periods are each followed by a space, and which has a
    space in it, leaves a final [.ext] without spaces alone. *)
Lemma replace_keeps_extension (a e k new : str) :
  period_guarded k = true -> has k SPACE = true -> ~ In SPACE e ->
  replace (a ++ PERIOD :: e) k new = replace a k new ++ PERIOD :: e.
Proof.
  intros Hk Hs He. destruct k as [|c k]; [discriminate|].
  unfold replace.
  rewrite replace_from_boundary by (auto using no_straddle_period || lia).
  f_equal. apply replace_from_absent.
  apply (contains_lacking _ _ SPACE); [now apply has_In|].
  intros [H | H]; [discriminate | contradiction].
Qed.

Lemma replacements_guarded :
  forallb (fun '(old, _) => period_guarded old && has old SPACE) replacements = true.
Proof. vm_compute. reflexivity. Qed.

Lemma apply_replacements_keeps_extension (a e : str) :
  ~ In SPACE e ->
  apply_replacements (a ++ PERIOD :: e) = apply_replacements a ++ PERIOD :: e.
Proof.
  intros He. unfold apply_replacements, apply_entries.
  pose proof replacements_guarded as Hg. revert a Hg.
  induction replacements as [|[old new] table IH]; intros a Hg; [reflexivity|].
  simpl in Hg |- *. apply andb_true_iff in Hg as [Hold Hg].
  apply andb_true_iff in Hold as [H1 H2].
  rewrite replace_keeps_extension by assumption. now apply IH.
Qed.

Lemma sub_space_runs_split (a b : str) (c : char) :
  c <> SPACE ->
  sub_space_runs (a ++ c :: b) = sub_space_runs a ++ c :: sub_space_runs b.
Proof.
  intros Hc. induction a as [|x a IH].
  - simpl. apply N.eqb_neq in Hc. now rewrite Hc.
  - cbn [app sub_space_runs]. rewrite IH.
    destruct a as [|y a]; cbn [app].
    + apply N.eqb_neq in Hc. rewrite Hc. now rewrite andb_false_r.
    + now destruct ((x =? SPACE)%N && (y =? SPACE)%N).
Qed.

Lemma sub_space_runs_absent (s : str) : ~ In SPACE s -> sub_space_runs s = s.
Proof.
  induction s as [|c s IH]; intros H; [reflexivity|].
  cbn [sub_space_runs]. destruct (N.eqb_spec c SPACE) as [->|Hne].
  - exfalso. apply H. now left.
  - simpl. f_equal. apply IH. intros Hin. apply H. now right.
Qed.

Lemma sub_space_runs_In (s : str) (x : char) : In x (sub_space_runs s) -> In x s.
Proof.
  induction s as [|c s IH]; [tauto|]. cbn [sub_space_runs].
  destruct ((c =? SPACE)%N && _); simpl; tauto.
Qed.

Lemma lstrip_app (a b : str) (c : char) :
  isspace c = false -> lstrip (a ++ c :: b) = lstrip a ++ c :: b.
Proof.
  intros Hc. induction a as [|x a IH]; simpl.
  - now rewrite Hc.
  - now destruct (isspace x).
Qed.

Lemma strip_split (a b : str) (c : char) :
  isspace c = false -> strip (a ++ c :: b) = lstrip a ++ c :: rstrip b.
Proof.
  intros Hc. unfold strip, rstrip. rewrite lstrip_app by assumption.
  rewrite rev_app_distr. simpl. rewrite <- app_assoc. simpl.
  rewrite lstrip_app by assumption.
  rewrite rev_app_distr. simpl. rewrite rev_involutive, <- app_assoc. reflexivity.
Qed.

Lemma lstrip_length (s : str) : length (lstrip s) <= length s.
Proof.
  induction s as [|c s IH]; simpl; [lia|]. destruct (isspace c); simpl; lia.
Qed.

Lemma rstrip_length (s : str) : length (rstrip s) <= length s.
Proof.
  unfold rstrip. rewrite length_rev.
  pose proof (lstrip_length (rev s)) as H. now rewrite length_rev in H.
Qed.

Lemma rstrip_In (s : str) (x : char) : In x (rstrip s) -> In x s.
Proof.
  unfold rstrip. rewrite <- in_rev. intros H. apply lstrip_In in H.
  now rewrite <- in_rev in H.
Qed.

Lemma replace_char_length (s new : str) (c : char) :
  length new <= 1 -> length (replace s [c] new) <= length s.
Proof.
  intros Hn. rewrite replace_char. induction s as [|x s IH]; simpl; [lia|].
  rewrite length_app. destruct (x =? c)%N; simpl; lia.
Qed.

(** The steps of the cleanup keep a final extension in place. *)
Lemma has_extension_replace (s old new : str) (n : nat) :
  ~ In PERIOD old -> old <> [] ->
  ~ In PERIOD new -> ~ In SLASH new -> ~ In SPACE new ->
  (In SPACE old \/ (exists c, old = [c]) /\ length new <= 1) ->
  has_extension s n -> has_extension (replace s old new) n.
Proof.
  intros Hold Hne Hn1 Hn2 Hn3 Hcase (root & ext & -> & H1 & H2 & H3 & H4).
  exists (replace root old new), (replace ext old new).
  assert (Hsplit : replace (root ++ PERIOD :: ext) old new
                   = replace root old new ++ PERIOD :: replace ext old new).
  { destruct old as [|o old]; [congruence|]. now apply replace_from_split. }
  split; [exact Hsplit|].
  repeat split; try (apply replace_keeps_absent; assumption).
  destruct Hcase as [Hsp | [(c & ->) Hlen]].
  - rewrite replace_absent; [assumption|].
    now apply (contains_lacking _ _ SPACE).
  - pose proof (replace_char_length ext new c Hlen). lia.
Qed.

Lemma has_extension_cleaned (root ext : str) (n : nat) :
  ~ In PERIOD ext -> ~ In SLASH ext -> ~ In SPACE ext -> length ext <= n ->
  has_extension (cleaned (root ++ PERIOD :: ext)) n.
Proof.
  intros H1 H2 H3 H4. unfold cleaned.
  rewrite apply_replacements_keeps_extension by assumption.
  unfold remove_spaces_and_punctuation. cbv zeta.
  rewrite sub_space_runs_split by discriminate.
  rewrite (sub_space_runs_absent ext) by assumption.
  rewrite strip_split by reflexivity.
  repeat (apply has_extension_replace;
          [ compute; intuition discriminate
          | discriminate
          | compute; intuition discriminate
          | compute; intuition discriminate
          | compute; intuition discriminate
          | first [ left; compute; tauto
                  | right; split; [eexists; reflexivity | simpl; lia] ]
          | ]).
  eexists _, (rstrip ext). split; [reflexivity|].
  repeat split; try (intros H; apply rstrip_In in H; contradiction).
  pose proof (rstrip_length ext). lia.
Qed.

(** The normaliser brings in no slash. *)
Lemma apply_replacements_In (s : str) (x : char) :
  In x (apply_replacements s) ->
  In x s \/ exists old new, In (old, new) replacements /\ In x new.
Proof.
  unfold apply_replacements, apply_entries. revert s.
  induction replacements as [|[old new] table IH]; intros s; simpl; [tauto|].
  intros H. apply IH in H as [H | (o & n & Hin & Hx)].
  - apply replace_In in H as [H | H]; [now left|].
    right. exists old, new. auto.
  - right. exists o, n. auto.
Qed.

Lemma replacements_no_slash :
  forallb (fun '(_, new) => negb (has new SLASH)) replacements = true.
Proof. vm_compute. reflexivity. Qed.

Lemma cleaned_no_slash (filename : str) :
  ~ In SLASH filename -> ~ In SLASH (cleaned filename).
Proof.
  intros Hf. unfold cleaned, remove_spaces_and_punctuation. cbv zeta.
  repeat (apply replace_keeps_absent; [| compute; intuition discriminate]).
  intros H. apply strip_In, sub_space_runs_In, apply_replacements_In in H.
  destruct H as [H | (old & new & Hin & Hx)]; [contradiction|].
  pose proof replacements_no_slash as Hns. rewrite forallb_forall in Hns.
  specialize (Hns _ Hin). simpl in Hns. apply negb_true_iff, has_false in Hns.
  contradiction.
Qed.

(** ** [splitext] on a reassembled name *)

(** A name with ["__"] before the 16-character tail, whose tail holds the
    final period with no slash around it: [splitext] cuts at that period. *)
Lemma splitext_reassembled (h t e : str) :
  ~ In SLASH t -> ~ In PERIOD e -> ~ In SLASH e ->
  splitext (h ++ py "__" ++ t ++ PERIOD :: e) = (h ++ py "__" ++ t, PERIOD :: e).
Proof.
  intros Ht He1 He2.
  set (x := h ++ py "__" ++ t).
  assert (Hp : h ++ py "__" ++ t ++ PERIOD :: e = x ++ PERIOD :: e)
    by (unfold x; now rewrite <- !app_assoc).
  assert (Hdot : rfind (x ++ PERIOD :: e) PERIOD = Z.of_nat (length x))
    by now apply rfind_last.
  assert (Hsep : rfind (x ++ PERIOD :: e) SLASH = rfind h SLASH).
  { unfold x. rewrite <- app_assoc. apply rfind_app_absent.
    intros H. apply in_app_iff in H as [H | H].
    - apply in_app_iff in H as [H | H]; [|contradiction].
      revert H. vm_compute. intuition discriminate.
    - destruct H as [H | H]; [discriminate | contradiction]. }
  pose proof (rfind_range h SLASH) as Hrange.
  rewrite Hp. unfold splitext, _splitext. rewrite Hdot, Hsep.
  assert (Hlen : length x = length h + 2 + length t).
  { unfold x. rewrite !length_app. change (length (py "__")) with 2. lia. }
  assert (Hgt : (Z.of_nat (length x) >? rfind h SLASH)%Z = true)
    by (apply Z.gtb_lt; lia).
  rewrite Hgt. cbn [andb].
  unfold slice, slice_to, slice_from.
  rewrite !length_app. cbn [length].
  rewrite (adjust_index_nonneg (Z.of_nat (length x))) by lia.
  rewrite (adjust_index_nonneg (rfind h SLASH + 1)) by lia.
  rewrite Nat2Z.id, take_app_length, drop_app_length.
  replace (existsb _ _) with true; [reflexivity|].
  symmetry. unfold x. rewrite drop_app_le by lia.
  rewrite existsb_app. apply orb_true_iff. right. reflexivity.
Qed.

(** The part of [s] before its last period, cut where the period is. *)
Lemma before_last_period_app (x e : str) :
  ~ In PERIOD e -> before_last_period (x ++ PERIOD :: e) = Some x.
Proof.
  intros He. unfold before_last_period. rewrite rfind_last by assumption.
  destruct (Z.ltb_spec (Z.of_nat (length x)) 0); [lia|].
  unfold slice_to. rewrite adjust_index_nonneg by (rewrite length_app; lia).
  now rewrite Nat2Z.id, take_app_length.
Qed.

(** What [get_new_filename] does to a name with an extension. *)
Lemma get_new_filename_extension (U : UnicodeData) (filename fmt : str) :
  ~ In SLASH filename -> has_extension (cleaned filename) 15 ->
  ~ In PERIOD fmt ->
  exists base,
    before_last_period (reassembled U filename) = Some base /\
    get_new_filename U filename fmt = base ++ PERIOD :: fmt /\
    before_last_period (get_new_filename U filename fmt) = Some base.
Proof.
  intros Hslash (root & ext & Hs & H1 & H2 & H3 & H4) Hfmt.
  pose proof (cleaned_no_slash filename Hslash) as Hns.
  unfold get_new_filename, reassembled, fix_video_code.
  generalize (replace (lower U (strip (slice_to (cleaned filename) (-16))))
                    (py " ") (py "-")).
  intros h.
  change (-16)%Z with (- Z.of_nat 16)%Z. rewrite slice_from_last by lia.
  revert Hns. rewrite Hs. intros Hns.
  set (n := length (root ++ PERIOD :: ext) - 16).
  assert (Hn : n <= length root).
  { unfold n. rewrite length_app. cbn [length]. lia. }
  rewrite drop_app_le by exact Hn.
  assert (Ht : ~ In SLASH (drop n root)).
  { intros H. apply Hns. rewrite in_app_iff. left.
    rewrite <- (take_drop n root), in_app_iff. right. exact H. }
  rewrite replace_extension_eq.
  rewrite splitext_reassembled by assumption. cbn [fst].
  exists (h ++ py "__" ++ drop n root).
  assert (Hassoc : forall y : str,
             h ++ py "__" ++ drop n root ++ y = (h ++ py "__" ++ drop n root) ++ y).
  { intros y. rewrite <- !app_assoc. reflexivity. }
  split; [|split].
  - rewrite Hassoc. apply before_last_period_app. exact H1.
  - reflexivity.
  - apply before_last_period_app. exact Hfmt.
Qed.

(** ** One entry of the replacement table *)

(** Where [old] occurs, [new] occurs after the replacement. *)
Lemma replace_contains_new (s old new : str) :
  old <> [] -> contains s old = true -> contains (replace s old new) new = true.
Proof.
  intros Hne. destruct old as [|o old]; [congruence|]. unfold replace.
  induction s as [|c s IH]; intros H.
  - discriminate.
  - cbn [replace_from]. cbn [contains] in H.
    destruct (startswith (c :: s) (o :: old)) eqn:E.
    + apply contains_spec. now exists [], (replace_from (o :: old) new (length (o :: old) - 1) s).
    + simpl in H. apply IH, contains_spec in H as (a & b & ->).
      apply contains_spec. now exists (c :: a), b.
Qed.

(** A prefix of the result that avoids the first character of [new] was a
    prefix of the string. *)
Lemma startswith_replace_from (old new s p : str) (n0 : char) :
  hd_error new = Some n0 -> ~ In n0 p ->
  startswith (replace_from old new 0 s) p = true -> startswith s p = true.
Proof.
  intros Hn. revert p. induction s as [|c s IH]; intros p Hp; [trivial|].
  cbn [replace_from]. destruct p as [|x p]; [reflexivity|].
  destruct (startswith (c :: s) old).
  - destruct new as [|n new]; [discriminate|]. injection Hn as ->.
    cbn [app startswith]. intros H. apply andb_true_iff in H as [H _].
    apply N.eqb_eq in H. subst. exfalso. apply Hp. now left.
  - cbn [startswith]. intros H. apply andb_true_iff in H as [H1 H2].
    rewrite H1. cbn [andb]. apply IH; [|assumption].
    intros Hin. apply Hp. now right.
Qed.

Lemma contains_app_skip (new r old : str) (o : char) :
  hd_error old = Some o -> ~ In o new ->
  contains (new ++ r) old = contains r old.
Proof.
  intros Ho. destruct old as [|o' old]; [discriminate|]. injection Ho as ->.
  induction new as [|n new IH]; intros Hn; [reflexivity|].
  cbn [app contains startswith].
  destruct (N.eqb_spec n o) as [->|Hne].
  - exfalso. apply Hn. now left.
  - cbn [andb orb]. apply IH. intros Hin. apply Hn. now right.
Qed.

(** After the replacement [old] is gone, when [new] starts with a
    character [old] lacks and [old] with a character [new] lacks. *)
Lemma replace_from_removes (old new s : str) (o n0 : char) (skip : nat) :
  hd_error old = Some o -> hd_error new = Some n0 ->
  ~ In o new -> ~ In n0 old ->
  contains (replace_from old new skip s) old = false.
Proof.
  intros Ho Hn Hon Hno. revert skip.
  induction s as [|c s IH]; intros skip.
  - destruct old; [discriminate | reflexivity].
  - cbn [replace_from]. destruct skip as [|k]; [|apply IH].
    destruct (startswith (c :: s) old) eqn:E.
    + rewrite (contains_app_skip _ _ _ o) by assumption. apply IH.
    + cbn [contains]. rewrite IH, orb_false_r.
      destruct (startswith (c :: replace_from old new 0 s) old) eqn:E'; [|reflexivity].
      assert (H : startswith (replace_from old new 0 (c :: s)) old = true)
        by (cbn [replace_from]; now rewrite E).
      apply (startswith_replace_from _ _ _ _ n0) in H; congruence.
Qed.

(** A hyphen-bounded text without spaces survives the replacement of a
    phrase that has a space and no hyphen. *)
Lemma replace_keeps_bounded (s k new n : str) :
  has k SPACE = true -> has k HYPHEN = false ->
  hyphen_bounded n = true -> has n SPACE = false ->
  contains s n = true -> contains (replace s k new) n = true.
Proof.
  intros Hk1 Hk2 Hb Hn H.
  apply has_In in Hk1. apply has_false in Hk2. apply has_false in Hn.
  destruct n as [|c m]; [now destruct (replace s k new)|].
  apply contains_spec in H as (a & b & ->).
  assert (Hne : k <> []) by (intros ->; contradiction).
  destruct k as [|k0 k]; [congruence|]. unfold replace.
  unfold hyphen_bounded in Hb.
  destruct (rev (c :: m)) as [|c' r] eqn:Hrev.
  { apply (f_equal (@length N)) in Hrev. rewrite length_rev in Hrev. discriminate. }
  apply andb_true_iff in Hb as [Hc Hc']. apply N.eqb_eq in Hc, Hc'. subst c c'.
  cbn [app]. rewrite replace_from_split by assumption.
  destruct m as [|x m] using rev_ind.
  - apply contains_spec. eexists _, _. reflexivity.
  - clear IHm. rewrite <- app_assoc. cbn [app].
    assert (x = HYPHEN) as ->.
    { change (HYPHEN :: m ++ [x]) with ((HYPHEN :: m) ++ [x]) in Hrev.
      rewrite rev_app_distr in Hrev. simpl in Hrev. congruence. }
    rewrite replace_from_split by assumption.
    rewrite (replace_from_absent _ _ m).
    + apply contains_spec.
      exists (replace_from (k0 :: k) new 0 a), (replace_from (k0 :: k) new 0 b).
      cbn [app]. rewrite <- app_assoc. reflexivity.
    + apply (contains_lacking _ _ SPACE); [assumption|].
      intros Hin. apply Hn. right. rewrite in_app_iff. now left.
Qed.

(** ** The whole table *)

Lemma replacements_shape : forallb entry_shape replacements = true.
Proof. vm_compute. reflexivity. Qed.

Lemma entry_shape_In (old new : str) :
  In (old, new) replacements -> entry_shape (old, new) = true.
Proof.
  pose proof replacements_shape as H. rewrite forallb_forall in H. apply H.
Qed.

(** The replacement of an entry survives the entries that come after it. *)
Lemma later_entries_keep (after : list (str * str)) (n s : str) :
  forallb entry_shape after = true ->
  hyphen_bounded n = true -> has n SPACE = false ->
  contains s n = true ->
  contains (apply_entries after s) n = true.
Proof.
  unfold apply_entries. revert s. induction after as [|[old new] after IH]; intros s Hshape Hb Hn H;
    [assumption|].
  cbn [fold_left forallb] in *. apply andb_true_iff in Hshape as [H1 H2].
  apply IH; try assumption.
  unfold entry_shape in H1. rewrite !andb_true_iff in H1.
  destruct H1 as [[[[Ha Hb'] _] _] _]. apply negb_true_iff in Hb'.
  now apply replace_keeps_bounded.
Qed.

Lemma earlier_entries_absent (before : list (str * str)) (s : str) :
  forallb (fun k => negb (contains s k)) (map fst before) = true ->
  apply_entries before s = s.
Proof.
  unfold apply_entries. induction before as [|[old new] before IH]; [reflexivity|].
  cbn [map fst forallb fold_left]. intros H.
  apply andb_true_iff in H as [H1 H2]. apply negb_true_iff in H1.
  rewrite replace_absent by assumption. now apply IH.
Qed.

(** The result of [get_new_filename] has no space unless fmt has one. *)
Lemma get_new_filename_no_space (U : UnicodeData) (filename fmt : str) :
  ~ In SPACE fmt -> ~ In SPACE (get_new_filename U filename fmt).
Proof.
  intros Hfmt Hin. unfold get_new_filename in Hin.
  rewrite replace_extension_eq in Hin.
  apply in_app_iff in Hin as [Hin | Hin].
  2:{ destruct Hin as [Hin | Hin]. discriminate. contradiction. }
  apply splitext_root_In in Hin. unfold reassembled, fix_video_code in Hin.
  apply in_app_iff in Hin as [Hin | Hin].
  - revert Hin. change (py " ") with [SPACE].
    apply replace_char_gone. vm_compute. intuition discriminate.
  - apply in_app_iff in Hin as [Hin | Hin].
    + revert Hin. vm_compute. intuition discriminate.
    + apply slice_from_In in Hin. exact (cleaned_no_space filename Hin).
Qed.

Lemma apply_entries_app (before after : list (str * str)) (s : str) :
  apply_entries (before ++ after) s = apply_entries after (apply_entries before s).
Proof. apply fold_left_app. Qed.

(** ** Characters of the result *)

Lemma replacements_lower_case :
  forallb (fun '(_, new) =>
             forallb (fun x => (97 <=? x) && (x <=? 122) || (x =? HYPHEN))%N new)
          replacements = true.
Proof. vm_compute. reflexivity. Qed.

(** The clean-up brings in hyphens and lower-case letters only. *)
Lemma cleaned_In (filename : str) (x : char) :
  In x (cleaned filename) ->
  In x filename \/ x = HYPHEN \/ (97 <= x <= 122)%N.
Proof.
  unfold cleaned, remove_spaces_and_punctuation. cbv zeta.
  change (py "-") with [HYPHEN]. change (py "") with (@nil N).
  intros H.
  repeat (apply replace_In in H as [H | H];
          [| first [ contradiction | destruct H as [<- | []]; auto ] ]).
  apply strip_In, sub_space_runs_In, apply_replacements_In in H.
  destruct H as [H | (old & new & Hin & Hx)]; [left; exact H|]. right.
  pose proof replacements_lower_case as Hall. rewrite forallb_forall in Hall.
  specialize (Hall _ Hin). cbn beta iota in Hall. rewrite forallb_forall in Hall.
  specialize (Hall _ Hx). apply orb_true_iff in Hall as [Hall | Hall].
  - right. apply andb_true_iff in Hall as [H1 H2].
    apply N.leb_le in H1, H2. lia.
  - left. now apply N.eqb_eq in Hall.
Qed.

Lemma reassembled_In (U : UnicodeData) (filename : str) (x : char) :
  lower_case_sound U ->
  In x (reassembled U filename) -> (x < 128)%N -> brought_in x = false ->
  In x filename.
Proof.
  intros HU Hin Hlt Hb. unfold brought_in in Hb.
  rewrite !orb_false_iff in Hb. destruct Hb as [[[Hl Hh] Hu] Hp].
  apply N.eqb_neq in Hh, Hu, Hp.
  assert (Hletter : ~ (97 <= x <= 122)%N).
  { intros [H1 H2]. apply N.leb_le in H1, H2. rewrite H1, H2 in Hl. discriminate Hl. }
  assert (Hc : In x (cleaned filename) -> In x filename).
  { intros H. apply cleaned_In in H as [H | [H | H]]; [assumption | | ]; contradiction. }
  unfold reassembled, fix_video_code in Hin.
  apply in_app_iff in Hin as [Hin | Hin].
  - change (py "-") with [HYPHEN] in Hin.
    apply replace_In in Hin as [Hin | [Hin | []]]; [|congruence].
    apply Hc. eapply slice_to_In, strip_In, (lower_In U); eassumption.
  - apply in_app_iff in Hin as [Hin | Hin].
    + exfalso. destruct Hin as [Hin | [Hin | []]]; apply Hu; symmetry; exact Hin.
    + apply Hc. eapply slice_from_In; eassumption.
Qed.

(** ** Names with nothing to clean *)

Lemma phrases_absent (s : str) :
  ~ In SPACE s -> forallb (fun old => negb (contains s old)) phrases = true.
Proof.
  intros Hs. apply forallb_forall. intros old Hin. apply negb_true_iff.
  unfold phrases in Hin. apply in_map_iff in Hin as ([old' new] & <- & Hin).
  pose proof replacements_guarded as Hg. rewrite forallb_forall in Hg.
  specialize (Hg _ Hin). cbn beta iota in Hg.
  apply andb_true_iff in Hg as [_ Hg]. cbn [fst].
  apply (contains_lacking _ _ SPACE); [now apply has_In | assumption].
Qed.

Lemma lstrip_stable (s : str) :
  (forall c, In c s -> isspace c = false) -> lstrip s = s.
Proof.
  destruct s as [|c s]; [reflexivity|]. intros H. cbn [lstrip].
  now rewrite (H c (or_introl eq_refl)).
Qed.

Lemma rstrip_stable (s : str) :
  (forall c, In c s -> isspace c = false) -> rstrip s = s.
Proof.
  intros H. unfold rstrip. rewrite lstrip_stable, rev_involutive; [reflexivity|].
  intros c Hc. apply H. now apply in_rev.
Qed.

(** ** A space-free end of the name *)

Lemma guarded_tail (c0 c : char) (k : str) :
  guarded c0 (c :: k) = true -> guarded c0 k = true.
Proof. cbn [guarded]. intros H. now apply andb_true_iff in H as [_ H]. Qed.

Lemma no_straddle_guarded (c0 : char) (k a b : str) :
  guarded c0 k = true -> ~ In SPACE (c0 :: b) -> no_straddle k a (c0 :: b).
Proof.
  intros Hk Hb a1 a2 _. clear a1 a. revert k Hk.
  induction a2 as [|x a2 IH]; intros k Hk H.
  - destruct k as [|c k]; [reflexivity|]. exfalso.
    cbn [app] in H. apply startswith_spec in H as (r & Hr).
    cbn [guarded] in Hk. apply andb_true_iff in Hk as [Hk _].
    injection Hr as Hc Hr. subst c. rewrite N.eqb_refl in Hk. cbn [negb orb] in Hk.
    apply has_In in Hk. apply Hb. destruct Hk as [Hk | Hk]; [left; exact Hk|].
    right. rewrite Hr, in_app_iff. left. exact Hk.
  - destruct k as [|c k]; [reflexivity|].
    cbn [app startswith] in H |- *. apply andb_true_iff in H as [H1 H2].
    rewrite H1. cbn [andb]. apply IH; [|assumption]. eapply guarded_tail; eassumption.
Qed.

Lemma ends_with_In (c : char) (k : str) : ends_with c k = true -> In c k.
Proof.
  induction k as [|x k IH]; [discriminate|]. cbn [ends_with].
  destruct k as [|y k].
  - intros H. apply N.eqb_eq in H. now left.
  - intros H. right. now apply IH.
Qed.

Lemma no_straddle_space_end (k a b : str) :
  ends_with SPACE k = true -> ~ In SPACE b -> no_straddle k a b.
Proof.
  intros Hk Hb a1 a2 _. clear a1 a. revert k Hk.
  induction a2 as [|x a2 IH]; intros k Hk H.
  - exfalso. cbn [app] in H. apply startswith_spec in H as (r & ->).
    apply Hb. rewrite in_app_iff. left. now apply ends_with_In.
  - destruct k as [|c k]; [reflexivity|].
    cbn [app startswith] in H |- *. apply andb_true_iff in H as [H1 H2].
    rewrite H1. cbn [andb].
    destruct k as [|c' k]; [reflexivity|]. apply IH; assumption.
Qed.

(** A phrase with a space leaves a space-free end of the string alone, when
    no occurrence can reach into it. *)
Lemma replace_keeps_end (a b k new : str) :
  no_straddle k a b -> has k SPACE = true -> ~ In SPACE b ->
  replace (a ++ b) k new = replace a k new ++ b.
Proof.
  intros Hns Hs Hb. destruct k as [|c k]; [discriminate|]. unfold replace.
  rewrite replace_from_boundary by (assumption || lia).
  f_equal. apply replace_from_absent.
  apply (contains_lacking _ _ SPACE); [now apply has_In | assumption].
Qed.

Lemma replacements_bracket_guarded :
  forallb (fun '(old, _) => guarded LBRACKET old && has old SPACE) replacements = true.
Proof. vm_compute. reflexivity. Qed.

Lemma apply_replacements_keeps_bracket (a b : str) :
  ~ In SPACE b ->
  apply_replacements (a ++ LBRACKET :: b) = apply_replacements a ++ LBRACKET :: b.
Proof.
  intros Hb. unfold apply_replacements, apply_entries.
  pose proof replacements_bracket_guarded as Hg. revert a Hg.
  induction replacements as [|[old new] table IH]; intros a Hg; [reflexivity|].
  cbn [forallb fold_left] in Hg |- *. apply andb_true_iff in Hg as [Hold Hg].
  apply andb_true_iff in Hold as [H1 H2].
  assert (Hb' : ~ In SPACE (LBRACKET :: b))
    by (intros [H | H]; [discriminate | contradiction]).
  rewrite replace_keeps_end.
  - apply IH. exact Hg.
  - apply no_straddle_guarded; assumption.
  - assumption.
  - exact Hb'.
Qed.

Lemma replace_char_app (x y new : str) (c : char) :
  replace (x ++ y) [c] new = replace x [c] new ++ replace y [c] new.
Proof. rewrite !replace_char. apply flat_map_app. Qed.

Lemma replace_char_absent (y new : str) (c : char) :
  ~ In c y -> replace y [c] new = y.
Proof.
  intros H. apply replace_absent.
  apply (contains_lacking _ _ c); [now left | assumption].
Qed.

Lemma replace_char_cons (y new : str) (c : char) :
  replace (c :: y) [c] new = new ++ replace y [c] new.
Proof. rewrite !replace_char. cbn [flat_map]. now rewrite N.eqb_refl. Qed.

(** ** [rfind] and [splitext] once more *)

Lemma rfind_spec (s : str) (c : char) :
  (rfind s c = (-1)%Z /\ ~ In c s)
  \/ exists a b, s = a ++ c :: b /\ ~ In c b /\ rfind s c = Z.of_nat (length a).
Proof.
  induction s as [|x s IH] using rev_ind.
  - left. split; [reflexivity | tauto].
  - destruct (N.eqb_spec x c) as [-> | Hne].
    + right. exists s, []. split; [reflexivity|]. split; [tauto|].
      now apply rfind_last.
    + assert (Hx : ~ In c [x]) by (intros [H | []]; congruence).
      destruct IH as [[Hr Hs] | (a & b & -> & Hb & Hr)].
      * left. rewrite rfind_app_absent by assumption. split; [assumption|].
        rewrite in_app_iff. tauto.
      * right. exists a, (b ++ [x]). rewrite <- app_assoc. split; [reflexivity|].
        split; [rewrite in_app_iff; tauto|].
        rewrite app_assoc, rfind_app_absent by assumption. assumption.
Qed.

Lemma rfind_take (s : str) (c : char) (d : nat) :
  (rfind s c < Z.of_nat d)%Z -> rfind (take d s) c = rfind s c.
Proof.
  intros Hd. destruct (rfind_spec s c) as [[Hr Hs] | (a & b & -> & Hb & Hr)].
  - rewrite Hr. apply rfind_from_absent. intros H. apply Hs.
    rewrite <- (take_drop d s), in_app_iff. now left.
  - rewrite Hr in *. rewrite take_app.
    rewrite take_ge by lia.
    replace (d - length a) with (S (d - length a - 1)) by lia.
    cbn [firstn]. apply rfind_last. intros H. apply Hb.
    rewrite <- (take_drop (d - length a - 1) b), in_app_iff. now left.
Qed.

(** A root with a name character behind its last slash, a period, and an
    extension without period or slash: [splitext] gives the two back. *)
Lemma splitext_root_ext (root ext : str) :
  has_name_char root = true -> ~ In PERIOD ext -> ~ In SLASH ext ->
  splitext (root ++ PERIOD :: ext) = (root, PERIOD :: ext).
Proof.
  intros Hroot He1 He2. unfold splitext, _splitext.
  rewrite rfind_last by assumption.
  assert (Hsep : rfind (root ++ PERIOD :: ext) SLASH = rfind root SLASH).
  { apply rfind_app_absent. intros [H | H]; [discriminate | contradiction]. }
  rewrite Hsep. pose proof (rfind_range root SLASH) as Hrange.
  assert (Hgt : (Z.of_nat (length root) >? rfind root SLASH)%Z = true)
    by (apply Z.gtb_lt; lia).
  rewrite Hgt. cbn [andb].
  unfold slice, slice_to, slice_from. rewrite !length_app. cbn [length].
  rewrite (adjust_index_nonneg (Z.of_nat (length root))) by lia.
  rewrite (adjust_index_nonneg (rfind root SLASH + 1)) by lia.
  rewrite Nat2Z.id, take_app_length, drop_app_length.
  unfold has_name_char in Hroot. now rewrite Hroot.
Qed.

(** The root [splitext] finds has a name character behind its last slash,
    as soon as the name has one. *)
Lemma splitext_root_name_char (p : str) :
  has_name_char p = true -> has_name_char (fst (splitext p)) = true.
Proof.
  intros Hp. unfold splitext, _splitext.
  set (sep := rfind p SLASH). set (dot := rfind p PERIOD).
  destruct ((dot >? sep)%Z && _) eqn:Hb; cbn [fst]; [|assumption].
  apply andb_true_iff in Hb as [Hgt Hex]. apply Z.gtb_lt in Hgt.
  pose proof (rfind_range p SLASH) as Hs. pose proof (rfind_range p PERIOD) as Hd.
  fold sep in Hs. fold dot in Hd.
  unfold has_name_char, slice_to. unfold slice in Hex.
  rewrite (adjust_index_nonneg dot) in * by lia.
  rewrite (adjust_index_nonneg (sep + 1)) in Hex by lia.
  rewrite rfind_take by (fold sep; lia). fold sep. exact Hex.
Qed.

Lemma reassembled_name_char (U : UnicodeData) (filename : str) :
  ~ In SLASH filename -> has_name_char (reassembled U filename) = true.
Proof.
  intros Hf. unfold reassembled, fix_video_code.
  set (h := replace _ (py " ") (py "-")).
  set (t := slice_from (cleaned filename) (-16)).
  assert (Ht : ~ In SLASH (py "__" ++ t)).
  { intros H. apply in_app_iff in H as [H | H].
    - destruct H as [H | [H | []]]; discriminate H.
    - apply (cleaned_no_slash filename Hf). eapply slice_from_In. exact H. }
  unfold has_name_char. rewrite rfind_app_absent by exact Ht.
  pose proof (rfind_range h SLASH) as Hrange.
  rewrite drop_app_le by lia.
  rewrite existsb_app. apply orb_true_iff. right. reflexivity.
Qed.

Lemma get_new_filename_In (U : UnicodeData) (filename fmt : str) (x : char) :
  lower_case_sound U ->
  In x (get_new_filename U filename fmt) -> (x < 128)%N -> brought_in x = false ->
  In x filename \/ In x fmt.
Proof.
  intros HU Hin Hlt Hb. unfold get_new_filename in Hin.
  rewrite replace_extension_eq in Hin.
  apply in_app_iff in Hin as [Hin | [Hin | Hin]].
  - left. apply splitext_root_In in Hin. eapply reassembled_In; eassumption.
  - exfalso. subst x. discriminate Hb.
  - right. exact Hin.
Qed.

(** ** Names as yt-dlp writes them *)

Lemma id_safe_spec (s : str) :
  id_safe s = true ->
  (forall c, In c s -> isspace c = false) /\
  forall c, In c [SPACE; COMMA; LPAREN; RPAREN; LBRACKET; RBRACKET; PERIOD; SLASH] ->
            ~ In c s.
Proof.
  unfold id_safe. rewrite forallb_forall. intros H. split.
  - intros c Hc. specialize (H c Hc). apply andb_true_iff in H as [H _].
    now apply negb_true_iff in H.
  - intros c Hc Hin. specialize (H c Hin). apply andb_true_iff in H as [H1 H2].
    apply negb_true_iff in H1, H2.
    repeat (destruct Hc as [<- | Hc]); try contradiction; discriminate.
Qed.

Lemma char_step (a y new : str) (c : char) :
  ~ In c y -> replace (a ++ y) [c] new = replace a [c] new ++ y.
Proof. intros H. now rewrite replace_char_app, (replace_char_absent y). Qed.

Lemma end_step (a b k new : str) :
  ends_with SPACE k = true -> ~ In SPACE b ->
  replace (a ++ b) k new = replace a k new ++ b.
Proof.
  intros Hk Hb. apply replace_keeps_end; try assumption.
  - now apply no_straddle_space_end.
  - now apply has_In, ends_with_In.
Qed.

(** The clean-up of [title [id].ext]: the brackets go, the id and the
    extension stay as they are, at the end. *)
Lemma cleaned_bracketed_id (title id ext : str) :
  id_safe id = true -> id_safe ext = true ->
  exists head,
    cleaned (title ++ LBRACKET :: id ++ RBRACKET :: PERIOD :: ext)
    = head ++ id ++ PERIOD :: ext.
Proof.
  intros Hid Hext.
  destruct (id_safe_spec id Hid) as [Hid1 Hid2].
  destruct (id_safe_spec ext Hext) as [Hext1 Hext2].
  assert (Hrest : forall c,
             In c [SPACE; COMMA; LPAREN; RPAREN; LBRACKET; SLASH] ->
             ~ In c (id ++ RBRACKET :: PERIOD :: ext)).
  { intros c Hc Hin. apply in_app_iff in Hin as [Hin | [Hin | [Hin | Hin]]].
    - apply (Hid2 c); [|exact Hin].
      repeat (destruct Hc as [<- | Hc]); try contradiction; cbn [In]; auto 10.
    - repeat (destruct Hc as [<- | Hc]); try contradiction; discriminate Hin.
    - repeat (destruct Hc as [<- | Hc]); try contradiction; discriminate Hin.
    - apply (Hext2 c); [|exact Hin].
      repeat (destruct Hc as [<- | Hc]); try contradiction; cbn [In]; auto 10. }
  assert (Hws : forall c, In c (id ++ RBRACKET :: PERIOD :: ext) -> isspace c = false).
  { intros c Hin. apply in_app_iff in Hin as [Hin | [<- | [<- | Hin]]]; auto. }
  assert (Hb : forall c, In c [SPACE; COMMA; LPAREN; RPAREN] ->
                         ~ In c (LBRACKET :: id ++ RBRACKET :: PERIOD :: ext)).
  { intros c Hc [Hin | Hin].
    - repeat (destruct Hc as [<- | Hc]); try contradiction; discriminate Hin.
    - apply (Hrest c); [|exact Hin].
      repeat (destruct Hc as [<- | Hc]); try contradiction; cbn [In]; auto 10. }
  assert (Hend : forall c, In c [SPACE; RBRACKET] -> ~ In c (id ++ PERIOD :: ext)).
  { intros c Hc Hin. apply in_app_iff in Hin as [Hin | [Hin | Hin]].
    - apply (Hid2 c); [|exact Hin].
      repeat (destruct Hc as [<- | Hc]); try contradiction; cbn [In]; auto 10.
    - repeat (destruct Hc as [<- | Hc]); try contradiction; discriminate Hin.
    - apply (Hext2 c); [|exact Hin].
      repeat (destruct Hc as [<- | Hc]); try contradiction; cbn [In]; auto 10. }
  unfold cleaned.
  rewrite apply_replacements_keeps_bracket by (apply Hrest; cbn [In]; auto).
  unfold remove_spaces_and_punctuation. cbv zeta.
  rewrite sub_space_runs_split by discriminate.
  rewrite (sub_space_runs_absent (id ++ _)) by (apply Hrest; cbn [In]; auto).
  rewrite strip_split by reflexivity.
  rewrite (rstrip_stable (id ++ _)) by exact Hws.
  change (py ",") with [COMMA]. change (py "(") with [LPAREN].
  change (py ")") with [RPAREN]. change (py "[") with [LBRACKET].
  change (py "]") with [RBRACKET]. change (py " ") with [SPACE].
  change (py "") with (@nil N).
  rewrite (char_step _ (LBRACKET :: _) _ COMMA) by (apply Hb; cbn [In]; auto).
  rewrite (char_step _ (LBRACKET :: _) _ LPAREN) by (apply Hb; cbn [In]; auto).
  rewrite (char_step _ (LBRACKET :: _) _ RPAREN) by (apply Hb; cbn [In]; auto).
  rewrite (replace_char_app _ (LBRACKET :: _)), replace_char_cons.
  rewrite (replace_char_absent (id ++ _)) by (apply Hrest; cbn [In]; auto 10).
  cbn [app].
  rewrite (app_assoc _ id), (replace_char_app _ (RBRACKET :: _)), replace_char_cons.
  rewrite (char_step _ id) by (apply Hid2; cbn [In]; auto 10).
  rewrite (replace_char_absent (PERIOD :: ext)).
  2:{ intros [H | H]; [discriminate H|]. revert H. apply Hext2. cbn [In]. auto 10. }
  cbn [app]. rewrite <- app_assoc.
  rewrite (end_step _ (id ++ PERIOD :: ext))
    by (reflexivity || (apply Hend; cbn [In]; auto)).
  rewrite (end_step _ (id ++ PERIOD :: ext))
    by (reflexivity || (apply Hend; cbn [In]; auto)).
  rewrite (char_step _ (id ++ PERIOD :: ext)) by (apply Hend; cbn [In]; auto).
  eexists. reflexivity.
Qed.

(** ** A replacement on its way to the result *)

Lemma contains_nil (s : str) : contains s [] = true.
Proof. destruct s; reflexivity. Qed.

Lemma contains_app_l (s t r : str) :
  contains s r = true -> contains (s ++ t) r = true.
Proof.
  rewrite !contains_spec. intros (a & b & ->). exists a, (b ++ t).
  now rewrite <- !app_assoc.
Qed.

Lemma contains_single (s : str) (c : char) : In c s -> contains s [c] = true.
Proof.
  intros H. apply in_split in H as (a & b & ->).
  apply contains_spec. now exists a, b.
Qed.

Lemma contains_rev (s r : str) :
  contains s r = true -> contains (rev s) (rev r) = true.
Proof.
  rewrite !contains_spec. intros (a & b & ->). exists (rev b), (rev a).
  rewrite !rev_app_distr. now rewrite <- app_assoc.
Qed.

Lemma plain_cons (c : char) (r : str) :
  plain (c :: r) = true -> plain [c] = true /\ plain r = true.
Proof.
  unfold plain. cbn [forallb]. rewrite andb_true_r. apply andb_true_iff.
Qed.

Lemma plain_In (r : str) (c : char) :
  plain r = true -> In c r -> ((97 <= c <= 122) \/ c = HYPHEN)%N.
Proof.
  unfold plain. rewrite forallb_forall. intros H Hc. specialize (H c Hc).
  apply orb_true_iff in H as [H | H].
  - apply andb_true_iff in H as [H1 H2]. apply N.leb_le in H1, H2. left. lia.
  - apply N.eqb_eq in H. now right.
Qed.

Lemma plain_lacks (r : str) (c : char) :
  plain r = true -> plain [c] = false -> ~ In c r.
Proof.
  intros Hr Hc Hin. unfold plain in Hr. rewrite forallb_forall in Hr.
  specialize (Hr c Hin). unfold plain in Hc. cbn [forallb] in Hc.
  rewrite andb_true_r in Hc. congruence.
Qed.

Lemma plain_isspace (r : str) (c : char) :
  plain r = true -> In c r -> isspace c = false.
Proof.
  intros Hr Hc. destruct (plain_In r c Hr Hc) as [H | ->]; [|reflexivity].
  destruct (isspace c) eqn:E; [|reflexivity]. exfalso.
  unfold isspace in E.
  repeat rewrite ?orb_true_iff, ?andb_true_iff, ?N.leb_le, ?N.eqb_eq in E. lia.
Qed.

(** *** The clean-up *)

Lemma sub_space_runs_prefix (m b : str) :
  ~ In SPACE m -> sub_space_runs (m ++ b) = m ++ sub_space_runs b.
Proof.
  induction m as [|x m IH]; intros H; [reflexivity|].
  cbn [app sub_space_runs]. destruct (N.eqb_spec x SPACE) as [->|Hne].
  - exfalso. apply H. now left.
  - cbn [andb app]. f_equal. apply IH. intros Hin. apply H. now right.
Qed.

Lemma sub_space_runs_keeps (s r : str) :
  ~ In SPACE r -> contains s r = true -> contains (sub_space_runs s) r = true.
Proof.
  intros Hr H. destruct r as [|c m]; [apply contains_nil|].
  apply contains_spec in H as (a & b & ->). cbn [app].
  rewrite sub_space_runs_split by (intros ->; apply Hr; now left).
  rewrite sub_space_runs_prefix by (intros Hin; apply Hr; now right).
  apply contains_spec. now exists (sub_space_runs a), (sub_space_runs b).
Qed.

Lemma lstrip_keeps (s r : str) :
  (forall c, In c r -> isspace c = false) ->
  contains s r = true -> contains (lstrip s) r = true.
Proof.
  intros Hr H. destruct r as [|c m]; [apply contains_nil|].
  apply contains_spec in H as (a & b & ->). cbn [app].
  rewrite lstrip_app by (apply Hr; now left).
  apply contains_spec. now exists (lstrip a), b.
Qed.

Lemma rstrip_keeps (s r : str) :
  (forall c, In c r -> isspace c = false) ->
  contains s r = true -> contains (rstrip s) r = true.
Proof.
  intros Hr H. unfold rstrip. rewrite <- (rev_involutive r).
  apply contains_rev, lstrip_keeps.
  - intros c Hc. apply Hr, in_rev, Hc.
  - now apply contains_rev.
Qed.

Lemma strip_keeps (s r : str) :
  (forall c, In c r -> isspace c = false) ->
  contains s r = true -> contains (strip s) r = true.
Proof.
  intros Hr H. unfold strip. apply rstrip_keeps; [assumption|].
  now apply lstrip_keeps.
Qed.

Lemma replace_char_keeps (s r new : str) (c : char) :
  ~ In c r -> contains s r = true -> contains (replace s [c] new) r = true.
Proof.
  intros Hr H. apply contains_spec in H as (a & b & ->).
  rewrite !replace_char_app, (replace_char_absent r) by assumption.
  apply contains_spec. eauto.
Qed.

(** A character of the string that is also in [new] is in the result:
    it is copied, or it was in an occurrence, and [new] stands there. *)
Lemma replace_from_keeps_char (old new s : str) (c : char) (skip : nat) :
  In c new -> In c (drop skip s) -> In c (replace_from old new skip s).
Proof.
  intros Hn. revert skip. induction s as [|x s IH]; intros skip H.
  - now rewrite drop_nil in H.
  - cbn [replace_from]. destruct skip as [|n].
    + destruct (startswith (x :: s) old).
      * apply in_app_iff. now left.
      * destruct H as [-> | H]; [now left|]. right. now apply (IH 0).
    + now apply IH.
Qed.

Lemma no_straddle_spaced_hyphen (a t : str) (x : char) :
  x <> SPACE -> no_straddle [SPACE; HYPHEN; SPACE] a (HYPHEN :: x :: t).
Proof.
  intros Hx a1 a2 _ H.
  destruct a2 as [|p [|q [|z a2]]]; cbn [app startswith] in H |- *.
  - apply andb_true_iff in H as [H _]. apply N.eqb_eq in H. discriminate H.
  - apply andb_true_iff in H as [_ H]. apply andb_true_iff in H as [_ H].
    apply andb_true_iff in H as [H _]. apply N.eqb_eq in H. contradiction.
  - apply andb_true_iff in H as [_ H]. apply andb_true_iff in H as [_ H].
    apply andb_true_iff in H as [H _]. apply N.eqb_eq in H. discriminate H.
  - exact H.
Qed.

(** No occurrence starts in a text that lacks the first character of
    [old]. *)
Lemma replace_from_copy (old new r b : str) (o : char) :
  hd_error old = Some o -> ~ In o r ->
  replace_from old new 0 (r ++ b) = r ++ replace_from old new 0 b.
Proof.
  intros Ho. destruct old as [|o' old]; [discriminate|]. injection Ho as ->.
  induction r as [|x r IH]; intros Hr; [reflexivity|].
  cbn [app replace_from startswith].
  destruct (N.eqb_spec x o) as [->|Hne].
  - exfalso. apply Hr. now left.
  - cbn [andb]. f_equal. apply IH. intros Hin. apply Hr. now right.
Qed.

Lemma hyphen_bounded_head (c : char) (m : str) :
  hyphen_bounded (c :: m) = true -> c = HYPHEN.
Proof.
  unfold hyphen_bounded. destruct (rev (c :: m)) as [|c' r] eqn:Hrev.
  - apply (f_equal (@length N)) in Hrev. rewrite length_rev in Hrev. discriminate.
  - intros H. apply andb_true_iff in H as [H _]. now apply N.eqb_eq in H.
Qed.

(** The replacement of [" - "] by a hyphen keeps a hyphen-bounded text of
    letters and hyphens. *)
Lemma replace_spaced_hyphen_keeps (s r : str) :
  plain r = true -> hyphen_bounded r = true ->
  contains s r = true ->
  contains (replace s [SPACE; HYPHEN; SPACE] [HYPHEN]) r = true.
Proof.
  intros Hp Hb H. destruct r as [|c [|x m]].
  - apply contains_nil.
  - apply hyphen_bounded_head in Hb. subst c.
    apply contains_single. unfold replace.
    apply replace_from_keeps_char; [now left|].
    apply contains_spec in H as (a & b & ->).
    change (drop 0 (a ++ [HYPHEN] ++ b)) with (a ++ [HYPHEN] ++ b).
    rewrite !in_app_iff. right. left. now left.
  - apply hyphen_bounded_head in Hb. subst c.
    assert (Hx : x <> SPACE).
    { intros ->. apply (plain_lacks _ SPACE Hp); [reflexivity|]. right. now left. }
    assert (Hs : ~ In SPACE (HYPHEN :: x :: m))
      by (apply (plain_lacks _ SPACE Hp); reflexivity).
    apply contains_spec in H as (a & b & ->). unfold replace.
    rewrite replace_from_boundary
      by (try lia; apply no_straddle_spaced_hyphen; exact Hx).
    rewrite (replace_from_copy _ _ (HYPHEN :: x :: m) b SPACE)
      by (reflexivity || exact Hs).
    apply contains_spec. eauto.
Qed.

Lemma cleaned_title_keeps (title r : str) :
  plain r = true -> hyphen_bounded r = true ->
  contains title r = true -> contains (cleaned_title title) r = true.
Proof.
  intros Hp Hb H.
  assert (Hlacks : forall c, plain [c] = false -> ~ In c r)
    by (intros c; apply plain_lacks; exact Hp).
  unfold cleaned_title. cbv zeta.
  change (py ",") with [COMMA]. change (py "(") with [LPAREN].
  change (py ")") with [RPAREN]. change (py "[") with [LBRACKET].
  change (py "]") with [RBRACKET]. change (py " ") with [SPACE].
  change (py " - ") with [SPACE; HYPHEN; SPACE]. change (py "-") with [HYPHEN].
  change (py "") with (@nil N).
  apply replace_char_keeps; [now apply Hlacks|].
  apply replace_keeps_bounded;
    [reflexivity | reflexivity | exact Hb | apply has_false; now apply Hlacks |].
  apply replace_spaced_hyphen_keeps; [exact Hp | exact Hb |].
  do 5 (apply replace_char_keeps; [now apply Hlacks|]).
  apply lstrip_keeps; [intros c; apply plain_isspace; exact Hp|].
  apply sub_space_runs_keeps; [now apply Hlacks | exact H].
Qed.

(** *** Lower-casing *)

Lemma ascii_tolower_plain (r : str) : plain r = true -> map ascii_tolower r = r.
Proof.
  induction r as [|c r IH]; intros H; [reflexivity|].
  apply plain_cons in H as [Hc Hr]. cbn [map]. rewrite IH by exact Hr. f_equal.
  destruct (plain_In [c] c Hc (or_introl eq_refl)) as [H | ->]; [|reflexivity].
  unfold ascii_tolower.
  destruct (N.leb_spec 65 c), (N.leb_spec c 90); cbn [andb]; try reflexivity. lia.
Qed.

Lemma do_lower_prefix (U : UnicodeData) (before a t : str) :
  exists pre, do_lower U before (a ++ t) = pre ++ do_lower U (rev a ++ before) t.
Proof.
  revert before. induction a as [|c a IH]; intros before; [now exists []|].
  cbn [app do_lower]. destruct (IH (c :: before)) as (pre & ->).
  replace (rev (c :: a) ++ before) with (rev a ++ c :: before)
    by (cbn [rev]; now rewrite <- app_assoc).
  eexists. apply app_assoc.
Qed.

Lemma do_lower_plain (U : UnicodeData) (before r t : str) :
  lower_fixes_plain U -> plain r = true ->
  do_lower U before (r ++ t) = r ++ do_lower U (rev r ++ before) t.
Proof.
  intros HU. revert before. induction r as [|c r IH]; intros before Hp; [reflexivity|].
  apply plain_cons in Hp as [Hc Hr]. cbn [app do_lower].
  assert (Hsigma : (c =? CAPITAL_SIGMA)%N = false).
  { apply N.eqb_neq. intros ->. discriminate Hc. }
  rewrite Hsigma, (HU c Hc), IH by exact Hr.
  cbn [app rev]. now rewrite <- (app_assoc (rev r)).
Qed.

Lemma lower_keeps (U : UnicodeData) (s r : str) :
  lower_fixes_plain U -> plain r = true ->
  contains s r = true -> contains (lower U s) r = true.
Proof.
  intros HU Hp H. apply contains_spec in H as (a & b & ->). unfold lower.
  destruct (forallb is_ascii (a ++ r ++ b)).
  - rewrite !map_app, (ascii_tolower_plain r Hp). apply contains_spec. eauto.
  - destruct (do_lower_prefix U [] a (r ++ b)) as (pre & ->).
    rewrite do_lower_plain by assumption. apply contains_spec. eauto.
Qed.

Lemma basic_latin_fixes_plain : lower_fixes_plain basic_latin.
Proof.
  intros c Hc. cbn [to_lower_full basic_latin]. f_equal.
  injection (ascii_tolower_plain [c] Hc) as H. exact H.
Qed.

(** *** Names with a bracketed id *)

Lemma replacements_plain :
  forallb (fun '(_, new) => plain new) replacements = true.
Proof. vm_compute. reflexivity. Qed.

(** The clean-up of [title [id].ext], with the part in front of the id
    spelt out. *)
Lemma cleaned_bracketed_title (title id ext : str) :
  id_safe id = true -> id_safe ext = true ->
  cleaned (title ++ LBRACKET :: id ++ RBRACKET :: PERIOD :: ext)
  = cleaned_title (apply_replacements title) ++ id ++ PERIOD :: ext.
Proof.
  intros Hid Hext.
  destruct (id_safe_spec id Hid) as [Hid1 Hid2].
  destruct (id_safe_spec ext Hext) as [Hext1 Hext2].
  assert (Hrest : forall c,
             In c [SPACE; COMMA; LPAREN; RPAREN; LBRACKET; SLASH] ->
             ~ In c (id ++ RBRACKET :: PERIOD :: ext)).
  { intros c Hc Hin. apply in_app_iff in Hin as [Hin | [Hin | [Hin | Hin]]].
    - apply (Hid2 c); [|exact Hin].
      repeat (destruct Hc as [<- | Hc]); try contradiction; cbn [In]; auto 10.
    - repeat (destruct Hc as [<- | Hc]); try contradiction; discriminate Hin.
    - repeat (destruct Hc as [<- | Hc]); try contradiction; discriminate Hin.
    - apply (Hext2 c); [|exact Hin].
      repeat (destruct Hc as [<- | Hc]); try contradiction; cbn [In]; auto 10. }
  assert (Hws : forall c, In c (id ++ RBRACKET :: PERIOD :: ext) -> isspace c = false).
  { intros c Hin. apply in_app_iff in Hin as [Hin | [<- | [<- | Hin]]]; auto. }
  assert (Hb : forall c, In c [SPACE; COMMA; LPAREN; RPAREN] ->
                         ~ In c (LBRACKET :: id ++ RBRACKET :: PERIOD :: ext)).
  { intros c Hc [Hin | Hin].
    - repeat (destruct Hc as [<- | Hc]); try contradiction; discriminate Hin.
    - apply (Hrest c); [|exact Hin].
      repeat (destruct Hc as [<- | Hc]); try contradiction; cbn [In]; auto 10. }
  assert (Hend : forall c, In c [SPACE; RBRACKET] -> ~ In c (id ++ PERIOD :: ext)).
  { intros c Hc Hin. apply in_app_iff in Hin as [Hin | [Hin | Hin]].
    - apply (Hid2 c); [|exact Hin].
      repeat (destruct Hc as [<- | Hc]); try contradiction; cbn [In]; auto 10.
    - repeat (destruct Hc as [<- | Hc]); try contradiction; discriminate Hin.
    - apply (Hext2 c); [|exact Hin].
      repeat (destruct Hc as [<- | Hc]); try contradiction; cbn [In]; auto 10. }
  unfold cleaned, cleaned_title.
  rewrite apply_replacements_keeps_bracket by (apply Hrest; cbn [In]; auto).
  unfold remove_spaces_and_punctuation. cbv zeta.
  rewrite sub_space_runs_split by discriminate.
  rewrite (sub_space_runs_absent (id ++ _)) by (apply Hrest; cbn [In]; auto).
  rewrite strip_split by reflexivity.
  rewrite (rstrip_stable (id ++ _)) by exact Hws.
  change (py ",") with [COMMA]. change (py "(") with [LPAREN].
  change (py ")") with [RPAREN]. change (py "[") with [LBRACKET].
  change (py "]") with [RBRACKET]. change (py " ") with [SPACE].
  change (py "") with (@nil N).
  rewrite (char_step _ (LBRACKET :: _) _ COMMA) by (apply Hb; cbn [In]; auto).
  rewrite (char_step _ (LBRACKET :: _) _ LPAREN) by (apply Hb; cbn [In]; auto).
  rewrite (char_step _ (LBRACKET :: _) _ RPAREN) by (apply Hb; cbn [In]; auto).
  rewrite (replace_char_app _ (LBRACKET :: _)), replace_char_cons.
  rewrite (replace_char_absent (id ++ _)) by (apply Hrest; cbn [In]; auto 10).
  cbn [app].
  rewrite (app_assoc _ id), (replace_char_app _ (RBRACKET :: _)), replace_char_cons.
  rewrite (char_step _ id) by (apply Hid2; cbn [In]; auto 10).
  rewrite (replace_char_absent (PERIOD :: ext)).
  2:{ intros [H | H]; [discriminate H|]. revert H. apply Hext2. cbn [In]. auto 10. }
  cbn [app]. rewrite <- app_assoc.
  rewrite (end_step _ (id ++ PERIOD :: ext))
    by (reflexivity || (apply Hend; cbn [In]; auto)).
  rewrite (end_step _ (id ++ PERIOD :: ext))
    by (reflexivity || (apply Hend; cbn [In]; auto)).
  rewrite (char_step _ (id ++ PERIOD :: ext)) by (apply Hend; cbn [In]; auto).
  reflexivity.
Qed.

(** The result for [title [id].ext] when the id, the period and the
    extension make the 16 characters of the tail. *)
Lemma get_new_filename_bracketed (U : UnicodeData) (title id ext fmt : str) :
  id_safe id = true -> id_safe ext = true ->
  length id + length ext = 15 ->
  get_new_filename U (title ++ LBRACKET :: id ++ RBRACKET :: PERIOD :: ext) fmt
  = replace (lower U (strip (cleaned_title (apply_replacements title))))
            [SPACE] [HYPHEN]
    ++ py "__" ++ id ++ PERIOD :: fmt.
Proof.
  intros Hid Hext Hlen.
  destruct (id_safe_spec id Hid) as [_ Hid2].
  destruct (id_safe_spec ext Hext) as [_ Hext2].
  unfold get_new_filename, reassembled, fix_video_code.
  rewrite (cleaned_bracketed_title title id ext Hid Hext).
  change (-16)%Z with (- Z.of_nat 16)%Z.
  rewrite slice_to_last, slice_from_last by lia.
  assert (Hl : length (cleaned_title (apply_replacements title) ++ id ++ PERIOD :: ext) - 16
               = length (cleaned_title (apply_replacements title))).
  { rewrite !length_app. cbn [length]. lia. }
  rewrite Hl, take_app_length, drop_app_length.
  rewrite replace_extension_eq.
  rewrite splitext_reassembled.
  - cbn [fst]. now rewrite <- !app_assoc.
  - apply Hid2. cbn [In]. auto 10.
  - apply Hext2. cbn [In]. auto 10.
  - apply Hext2. cbn [In]. auto 10.
Qed.

(** A replacement that the replacement pass has put into the title is in
    the result. *)
Lemma replacement_reaches_result (U : UnicodeData) (title id ext fmt new : str) :
  lower_fixes_plain U ->
  id_safe id = true -> id_safe ext = true ->
  length id + length ext = 15 ->
  plain new = true -> hyphen_bounded new = true ->
  contains (apply_replacements title) new = true ->
  contains (get_new_filename U (title ++ LBRACKET :: id ++ RBRACKET :: PERIOD :: ext) fmt)
           new = true.
Proof.
  intros HU Hid Hext Hlen Hp Hb H.
  rewrite get_new_filename_bracketed by assumption.
  apply contains_app_l.
  apply replace_char_keeps; [apply (plain_lacks _ SPACE Hp); reflexivity|].
  apply lower_keeps; [exact HU | exact Hp|].
  apply strip_keeps; [intros c; apply plain_isspace; exact Hp|].
  apply cleaned_title_keeps; assumption.
Qed.

(** A phrase of the table found in [title [id].ext] lies in the title:
    the id and the extension have no space, and every phrase has one. *)
Lemma phrase_in_title (title b old : str) :
  has old SPACE = true -> guarded LBRACKET old = true ->
  ~ In SPACE b ->
  contains (title ++ LBRACKET :: b) old = true -> contains title old = true.
Proof.
  intros Hs Hg Hb H. apply has_In in Hs.
  assert (Hb' : ~ In SPACE (LBRACKET :: b))
    by (intros [E | E]; [discriminate E | contradiction]).
  apply contains_spec in H as (p & q & H).
  apply app_eq_app in H as (l & [[Ht Hq] | [Hp Hq]]).
  - assert (Hl : startswith l old = true).
    { apply (no_straddle_guarded LBRACKET old title b Hg Hb' p l Ht).
      apply startswith_spec. exists q. now rewrite Hq. }
    apply startswith_spec in Hl as (r & ->).
    apply contains_spec. exists p, r. exact Ht.
  - exfalso. apply Hb'. rewrite Hq, !in_app_iff. right. now left.
Qed.

Lemma replacements_phrases_guarded :
  forallb (fun '(old, _) => guarded LBRACKET old && has old SPACE) replacements = true.
Proof. vm_compute. reflexivity. Qed.

(** ** [get_new_filename] handed a string *)


(** ** Running programs *)

Lemma run_from_log {W A} (E : env W) (m : prog A) (w : W) (log : list call) :
  run_from E m w log
  = {| result := result (run E m w);
       world := world (run E m w);
       calls := log ++ calls (run E m w) |}.
Proof.
  unfold run. revert w log.
  induction m as [a | e | c k IH | o u d k IH | k IH | p k IH]; intros w log; simpl.
  - now rewrite app_nil_r.
  - now rewrite app_nil_r.
  - destruct (subprocess_run E c w) as [r w'].
    rewrite (IH r w' (log ++ _)), (IH r w' [_]). simpl. now rewrite <- app_assoc.
  - destruct (extract_info E o u d w) as [r w'].
    rewrite (IH r w' (log ++ _)), (IH r w' [_]). simpl. now rewrite <- app_assoc.
  - destruct (datetime_now E w) as [r w'].
    rewrite (IH r w' (log ++ _)), (IH r w' [_]). simpl. now rewrite <- app_assoc.
  - destruct (glob_glob E p w) as [r w'].
    rewrite (IH r w' (log ++ _)), (IH r w' [_]). simpl. now rewrite <- app_assoc.
Qed.

Lemma run_from_bind {W A B} (E : env W) (m : prog A) (f : A -> prog B)
    (w : W) (log : list call) :
  run_from E (bind m f) w log
  = match result (run_from E m w log) with
    | inr a => run_from E (f a) (world (run_from E m w log)) (calls (run_from E m w log))
    | inl e => {| result := inl e;
                  world := world (run_from E m w log);
                  calls := calls (run_from E m w log) |}
    end.
Proof.
  revert w log.
  induction m as [a | e | c k IH | o u d k IH | k IH | p k IH]; intros w log; simpl;
    try reflexivity.
  - destruct (subprocess_run E c w) as [r w']. apply IH.
  - destruct (extract_info E o u d w) as [r w']. apply IH.
  - destruct (datetime_now E w) as [r w']. apply IH.
  - destruct (glob_glob E p w) as [r w']. apply IH.
Qed.

(** What a run of [m] then [f] returns, and the world it leaves. *)
Lemma run_bind_result {W A B} (E : env W) (m : prog A) (f : A -> prog B) (w : W) :
  result (run E (bind m f) w)
  = match result (run E m w) with
    | inr a => result (run E (f a) (world (run E m w)))
    | inl e => inl e
    end.
Proof.
  unfold run. rewrite run_from_bind.
  destruct (result (run_from E m w [])); [reflexivity|].
  now rewrite run_from_log.
Qed.

Lemma run_bind_world {W A B} (E : env W) (m : prog A) (f : A -> prog B) (w : W) :
  world (run E (bind m f) w)
  = match result (run E m w) with
    | inr a => world (run E (f a) (world (run E m w)))
    | inl e => world (run E m w)
    end.
Proof.
  unfold run. rewrite run_from_bind.
  destruct (result (run_from E m w [])); [reflexivity|].
  now rewrite run_from_log.
Qed.

(** ** The batch loop *)

Lemma each_returns_length {W A B} (E : env W) (f : A -> prog B) xs w out w' :
  each_returns E f xs w out w' -> length out = length xs.
Proof. induction 1; simpl; congruence. Qed.

(** The element at each place of the output is what the single run at that
    place returned, in the world the runs before it left. *)
Lemma each_returns_lookup {W A B} (E : env W) (f : A -> prog B) xs w out w' :
  each_returns E f xs w out w' ->
  forall i x, xs !! i = Some x ->
    exists wi r, out !! i = Some r /\ result (run E (f x) wi) = inr r.
Proof.
  induction 1 as [|x xs w r out w' Hr _ IH]; intros i y Hi.
  - discriminate.
  - destruct i as [|i]; simpl in *.
    + injection Hi as <-. now exists w, r.
    + now apply IH.
Qed.

Lemma for_each_append_returns {W A B} (E : env W) (f : A -> prog B) xs :
  forall w output rs w',
    each_returns E f xs w rs w' ->
    result (run E (for_each_append f xs output) w) = inr (output ++ rs)
    /\ world (run E (for_each_append f xs output) w) = w'.
Proof.
  induction xs as [|x xs IH]; intros w output rs w' H.
  - inversion H; subst. simpl. now rewrite app_nil_r.
  - inversion H as [|? ? ? r rs0 ? Hr He]; subst. simpl.
    rewrite run_bind_result, run_bind_world, Hr.
    destruct (IH _ (output ++ [r]) _ _ He) as [IH1 IH2].
    rewrite <- app_assoc in IH1. auto.
Qed.

Lemma for_each_append_inv {W A B} (E : env W) (f : A -> prog B) xs :
  forall w output out,
    result (run E (for_each_append f xs output) w) = inr out ->
    exists rs, out = output ++ rs /\
      each_returns E f xs w rs (world (run E (for_each_append f xs output) w)).
Proof.
  induction xs as [|x xs IH]; intros w output out; simpl.
  - intros [= <-]. exists []. rewrite app_nil_r. split; [reflexivity | constructor].
  - rewrite run_bind_result, run_bind_world.
    destruct (result (run E (f x) w)) as [e | r] eqn:Hr; [discriminate|].
    intros H. destruct (IH _ _ _ H) as (rs & -> & Hrs).
    exists (r :: rs). rewrite <- app_assoc. split; [reflexivity|].
    now constructor.
Qed.

(** A single run that raises ends the loop with that error. *)
Lemma for_each_append_raises {W A B} (E : env W) (f : A -> prog B) x xs w output e :
  result (run E (f x) w) = inl e ->
  result (run E (for_each_append f (x :: xs) output) w) = inl e.
Proof. intros H. simpl. now rewrite run_bind_result, H. Qed.

(** ** Calls of a run *)

Lemma run_bind_calls {W A B} (E : env W) (m : prog A) (f : A -> prog B) (w : W) :
  calls (run E (bind m f) w)
  = match result (run E m w) with
    | inr a => calls (run E m w) ++ calls (run E (f a) (world (run E m w)))
    | inl e => calls (run E m w)
    end.
Proof.
  unfold run. rewrite run_from_bind.
  destruct (result (run_from E m w [])); [reflexivity|].
  now rewrite run_from_log.
Qed.

(** The calls of the loop up to a run that raises. *)
Lemma for_each_append_abort {W A B} (E : env W) (f : A -> prog B)
    (before : list A) (w : W) (out : list B) (w' : W) :
  each_returns E f before w out w' ->
  forall x rest e output,
    result (run E (f x) w') = inl e ->
    result (run E (for_each_append f (before ++ x :: rest) output) w) = inl e /\
    calls (run E (for_each_append f (before ++ x :: rest) output) w)
    = calls (run E (for_each_append f before output) w) ++ calls (run E (f x) w').
Proof.
  induction 1 as [w | y before w r out w' Hr _ IH]; intros x rest e output He.
  - cbn [app for_each_append]. rewrite run_bind_result, run_bind_calls, He.
    split; reflexivity.
  - cbn [app for_each_append].
    rewrite run_bind_result, !run_bind_calls, Hr.
    destruct (IH x rest e (output ++ [r]) He) as [IH1 IH2].
    split; [exact IH1|]. rewrite IH2. now rewrite app_assoc.
Qed.

(** ** [convert_to_mp3] *)

(** The record of a conversion whose shell call has returned. *)
Lemma convert_to_mp3_returns {W} (U : UnicodeData) (E : env W) (w : W) (filename : str)
    (status : Z) :
  fst (subprocess_run E
         (command_string filename (get_new_filename U filename (py "mp3"))) w)
  = inr status ->
  exists record,
    result (run E (convert_to_mp3 U filename) w) = inr record /\
    record !! py "original_filename" = Some (VStr filename) /\
    record !! py "new_filename"
      = Some (VStr (get_new_filename U filename (py "mp3"))) /\
    record !! py "successfully_converted" = Some (VBool true) /\
    record !! py "error_code" = Some VNone.
Proof.
  unfold run, convert_to_mp3. cbn [run_from].
  destruct (subprocess_run E _ w) as [r w']. cbn [fst]. intros ->.
  cbn [lift bind run_from result].
  eexists. split; [reflexivity|].
  repeat split; vm_compute; reflexivity.
Qed.

(** An error of the shell call is the error of the conversion. *)
Lemma convert_to_mp3_raises {W} (U : UnicodeData) (E : env W) (w : W) (filename : str)
    (e : exn) :
  fst (subprocess_run E
         (command_string filename (get_new_filename U filename (py "mp3"))) w)
  = inl e ->
  result (run E (convert_to_mp3 U filename) w) = inl e.
Proof.
  unfold run, convert_to_mp3. cbn [run_from].
  destruct (subprocess_run E _ w) as [r w']. cbn [fst]. intros ->.
  reflexivity.
Qed.

(** A conversion returns only when its shell call has returned. *)
Lemma convert_to_mp3_returned {W} (U : UnicodeData) (E : env W) (w : W) (filename : str)
    (record : dict) :
  result (run E (convert_to_mp3 U filename) w) = inr record ->
  exists status,
    fst (subprocess_run E
           (command_string filename (get_new_filename U filename (py "mp3"))) w)
    = inr status.
Proof.
  intros Hr.
  destruct (fst (subprocess_run E _ w)) as [e | status] eqn:Ha; [|now exists status].
  rewrite (convert_to_mp3_raises U E w filename e Ha) in Hr. discriminate.
Qed.

(** The shell call is made whether or not it then raises. *)
Lemma convert_to_mp3_calls {W} (U : UnicodeData) (E : env W) (w : W) (filename : str) :
  calls (run E (convert_to_mp3 U filename) w)
  = [CallSubprocessRun
       (command_string filename (get_new_filename U filename (py "mp3")))].
Proof.
  unfold run, convert_to_mp3. cbn [run_from].
  destruct (subprocess_run E _ w) as [[e | status] w']; reflexivity.
Qed.

(** Every conversion of a batch returns when every shell call does. *)
Lemma convert_each_returns {W} (U : UnicodeData) (E : env W) (filename_list : list str) :
  shell_returns E ->
  forall w, exists out w', each_returns E (convert_to_mp3 U) filename_list w out w'.
Proof.
  intros Hshell.
  induction filename_list as [|filename rest IH]; intros w.
  - exists [], w. constructor.
  - destruct (Hshell (command_string filename (get_new_filename U filename (py "mp3"))) w)
      as (status & Hs).
    destruct (convert_to_mp3_returns U E w filename status Hs) as (record & Hr & _).
    destruct (IH (world (run E (convert_to_mp3 U filename) w))) as (out & w' & Hout).
    exists (record :: out), w'. now constructor.
Qed.

(** The calls of a batch of conversions that all return. *)
Lemma batch_convert_calls {W} (U : UnicodeData) (E : env W) (filename_list : list str)
    (w : W) (out : list dict) (w' : W) :
  each_returns E (convert_to_mp3 U) filename_list w out w' ->
  forall output : list dict,
    calls (run E (for_each_append (convert_to_mp3 U) filename_list output) w)
    = map (conversion_call U) filename_list.
Proof.
  induction 1 as [w | filename rest w r out w' Hr _ IH]; intros output; [reflexivity|].
  cbn [for_each_append map]. rewrite run_bind_calls, Hr, convert_to_mp3_calls, IH.
  reflexivity.
Qed.

(** ** [download_video] *)

Lemma download_record_nonempty (url filename : list N) (filesize title fulltitle youtube_id duration timestamp : value) :
  (<[py "url" := VStr url]>
     (<[py "filename" := VStr filename]>
      (<[py "filesize" := filesize]>
       (<[py "title" := title]>
        (<[py "fulltitle" := fulltitle]>
         (<[py "youtube_id" := youtube_id]>
          (<[py "duration" := duration]>
           (<[py "timestamp" := timestamp]> (∅ : gmap (list N) value))))))))) ≠ ∅.
Proof. apply insert_non_empty. Qed.


(** ** The database cut down to Basic Latin is sound *)

Lemma basic_latin_sound : lower_case_sound basic_latin.
Proof.
  intros c x [<- | []] _. simpl. unfold ascii_tolower.
  destruct (N.leb_spec 65 c), (N.leb_spec c 90); simpl; auto.
  right. lia.
Qed.

(** * The claims *)

(** C1. When the cleaned-up name has at least 16 characters,
    [get_new_filename] cuts it into a head and a tail of exactly 16
    characters, strips, lower-cases and hyphenates the head, leaves the tail
    as it is, and puts ["__"] between them; with a sound database and a head
    without white space at its ends this is the lower-cased head, ["__"], the
    tail.  On the spec's scenario name and on a yt-dlp name with fmt mp3 the
    decorations are gone, the connectives rewritten, and the result is the
    lower-cased head, ["__"], the tail with its extension replaced by
    [.mp3]. *)
Theorem C1_head_tail_reassembly :
  (forall (U : UnicodeData) (filename : str),
      16 <= length (cleaned filename) ->
      exists head tail,
        cleaned filename = head ++ tail /\ length tail = 16 /\
        reassembled U filename
        = Str.replace (lower U (Str.strip head)) (py " ") (py "-")
          ++ py "__" ++ tail /\
        (lower_case_sound U -> Str.strip head = head ->
         reassembled U filename = lower U head ++ py "__" ++ tail))
  /\ (forall U : UnicodeData,
         reassembled U scenario_name
         = py "artistname-songtitle_uyi" ++ py "__" ++ py "AfiVGluk123.webm"
         /\ get_new_filename U scenario_name (py "mp3")
            = py "artistname-songtitle_uyi__AfiVGluk123.mp3"
         /\ reassembled U ytdlp_name
            = py "artist-feat-other-song-and-dance" ++ py "__" ++ py "UYIAfiVGluk.webm"
         /\ get_new_filename U ytdlp_name (py "mp3")
            = py "artist-feat-other-song-and-dance__UYIAfiVGluk.mp3").
Proof.
  split.
  - intros U filename Hlen.
    destruct (fix_video_code_long U (cleaned filename) Hlen)
      as (head & tail & Hsplit & Htail & Heq).
    exists head, tail. repeat split; try assumption.
    intros HU Hstrip. unfold reassembled. rewrite Heq, Hstrip.
    rewrite hyphenate_lower_inert; [reflexivity | assumption |].
    intros H. apply (cleaned_no_space filename).
    rewrite Hsplit, in_app_iff. now left.
  - intros U. repeat split; vm_compute; reflexivity.
Qed.

Lemma C1_head_tail_reassembly_witness :
  16 <= length (cleaned ytdlp_name) /\
  exists head tail,
    cleaned ytdlp_name = head ++ tail /\ length tail = 16 /\
    reassembled basic_latin ytdlp_name
    = Str.replace (lower basic_latin (Str.strip head)) (py " ") (py "-")
      ++ py "__" ++ tail /\
    (lower_case_sound basic_latin -> Str.strip head = head ->
     reassembled basic_latin ytdlp_name = lower basic_latin head ++ py "__" ++ tail).
Proof.
  assert (H : 16 <= length (cleaned ytdlp_name)) by (vm_compute; lia).
  split; [exact H|].
  exact (proj1 C1_head_tail_reassembly basic_latin ytdlp_name H).
Defined.

(** C2 (amended). Whatever the filename and fmt, the result is the root
    [os.path.splitext] finds in the reassembled name, a period, and fmt, so
    it ends in a period and fmt.  When the filename has no slash and ends in
    a period and an extension of at most 15 characters without period, slash
    or space, and fmt has no period, the part of the result before its final
    period is the part of the reassembled name before its final period. *)
Theorem C2_extension_replaced :
  (forall (U : UnicodeData) (filename fmt : str),
      get_new_filename U filename fmt
      = fst (splitext (reassembled U filename)) ++ py "." ++ fmt /\
      Str.endswith (get_new_filename U filename fmt) (py "." ++ fmt) = true)
  /\ (forall (U : UnicodeData) (stem ext1 fmt : str),
        Str.has (stem ++ py "." ++ ext1) SLASH = false ->
        free_of [PERIOD; SLASH; SPACE] ext1 = true ->
        length ext1 <= 15 ->
        Str.has fmt PERIOD = false ->
        exists base,
          before_last_period (reassembled U (stem ++ py "." ++ ext1)) = Some base /\
          get_new_filename U (stem ++ py "." ++ ext1) fmt = base ++ py "." ++ fmt /\
          before_last_period (get_new_filename U (stem ++ py "." ++ ext1) fmt)
          = Some base).
Proof.
  split.
  - intros U filename fmt. split; [reflexivity|].
    unfold get_new_filename. rewrite replace_extension_eq.
    apply (endswith_app _ (PERIOD :: fmt)).
  - intros U stem ext1 fmt Hslash Hext Hlen Hfmt.
    change (py "." ++ ext1) with (PERIOD :: ext1) in *.
    rewrite free_of_spec in Hext.
    assert (H1 : ~ In PERIOD ext1) by (apply Hext; simpl; auto).
    assert (H2 : ~ In SLASH ext1) by (apply Hext; simpl; auto).
    assert (H3 : ~ In SPACE ext1) by (apply Hext; simpl; auto).
    apply get_new_filename_extension.
    + now apply has_false.
    + now apply has_extension_cleaned.
    + now apply has_false.
Qed.

Lemma C2_extension_replaced_witness :
  exists base,
    before_last_period
      (reassembled basic_latin (py "Artist - Song [UYIAfiVGluk]" ++ py "." ++ py "webm"))
    = Some base /\
    get_new_filename basic_latin
      (py "Artist - Song [UYIAfiVGluk]" ++ py "." ++ py "webm") (py "mp3")
    = base ++ py "." ++ py "mp3" /\
    before_last_period
      (get_new_filename basic_latin
         (py "Artist - Song [UYIAfiVGluk]" ++ py "." ++ py "webm") (py "mp3"))
    = Some base.
Proof.
  apply (proj2 C2_extension_replaced basic_latin
           (py "Artist - Song [UYIAfiVGluk]") (py "webm") (py "mp3")).
  - vm_compute. reflexivity.
  - vm_compute. reflexivity.
  - vm_compute. lia.
  - vm_compute. reflexivity.
Defined.

(** C2, as stated, fails.  With fmt [tar.gz] the name of a [.webm] file
    comes out ending in [.tar.gz], and the part before its final period ends
    in [.tar]: it is not the base of the reassembled name.  The base differs
    as well, with fmt [mp3], for a hidden file in a directory, for a name
    that is a period and sixteen characters, and for a name whose last
    period belongs to [" ft. "]. *)
Lemma C2_counterexample :
  Str.endswith ytdlp_name (py ".webm") = true /\
  (forall U : UnicodeData,
      before_last_period (reassembled U ytdlp_name)
      = Some (py "artist-feat-other-song-and-dance__UYIAfiVGluk") /\
      get_new_filename U ytdlp_name (py "tar.gz")
      = py "artist-feat-other-song-and-dance__UYIAfiVGluk.tar.gz" /\
      before_last_period (get_new_filename U ytdlp_name (py "tar.gz"))
      = Some (py "artist-feat-other-song-and-dance__UYIAfiVGluk.tar")) /\
  (forall U : UnicodeData,
      before_last_period (reassembled U (py "aaaaaaaaaaaaaaaaaaaaaa/.hidden"))
      <> before_last_period
           (get_new_filename U (py "aaaaaaaaaaaaaaaaaaaaaa/.hidden") (py "mp3"))) /\
  (forall U : UnicodeData,
      before_last_period (reassembled U (py ".aaaaaaaaaaaaaaaa"))
      <> before_last_period (get_new_filename U (py ".aaaaaaaaaaaaaaaa") (py "mp3"))) /\
  (forall U : UnicodeData,
      before_last_period (reassembled U (py "a ft. b"))
      <> before_last_period (get_new_filename U (py "a ft. b") (py "mp3"))).
Proof.
  split; [vm_compute; reflexivity|].
  split; [intros U; repeat split; vm_compute; reflexivity|].
  repeat split; intros U; vm_compute; discriminate.
Qed.



(** C4 (amended). Take an entry of the replacement table, phrase and
    replacement, and a filename [title [id].ext] whose id and extension
    have no white space, comma, parenthesis, square bracket, period or
    slash and make 16 characters with the period between them, so that the
    16-character cut and the extension step fall behind the title.  If the
    title contains the phrase when the turn of the entry comes, as it does
    when the filename contains the phrase and the title none of the phrases
    listed before it, then the result of [get_new_filename] contains the
    replacement (given that lower-casing leaves [a]-[z] and the hyphen as
    they are) and, when fmt has no space, not the phrase.  For every
    filename the result contains none of the phrases when fmt has no space.
    Matching is literal: an entry leaves a string without its phrase as it
    is, and a case variant of [" feat. "] brings no [-feat-] into the
    result. *)
Theorem C4_replacement_table_coverage (U : UnicodeData) :
  (forall (before after : list (str * str)) (old new title id ext fmt : str),
      lower_fixes_plain U ->
      replacements = before ++ (old, new) :: after ->
      id_safe id = true -> id_safe ext = true ->
      length id + length ext = 15 ->
      Str.contains (apply_entries before title) old = true ->
      Str.contains
        (get_new_filename U (title ++ py "[" ++ id ++ py "]." ++ ext) fmt) new = true /\
      (Str.has fmt SPACE = false ->
       Str.contains
         (get_new_filename U (title ++ py "[" ++ id ++ py "]." ++ ext) fmt) old = false))
  /\ (forall (before after : list (str * str)) (old new title id ext : str),
        replacements = before ++ (old, new) :: after ->
        id_safe id = true -> id_safe ext = true ->
        Str.contains (title ++ py "[" ++ id ++ py "]." ++ ext) old = true ->
        forallb (fun k => negb (Str.contains title k)) (map fst before) = true ->
        Str.contains (apply_entries before title) old = true)
  /\ (forall filename fmt old : str,
        In old phrases -> Str.has fmt SPACE = false ->
        Str.contains (get_new_filename U filename fmt) old = false)
  /\ (forall old new s : str,
        Str.contains s old = false -> Str.replace s old new = s)
  /\ (Str.contains (py "Song FEAT. Other [UYIAfiVGluk].webm") (py " feat. ") = false /\
      get_new_filename U (py "Song FEAT. Other [UYIAfiVGluk].webm") (py "mp3")
      = py "songfeat.other__UYIAfiVGluk.mp3" /\
      Str.contains (py "songfeat.other__UYIAfiVGluk.mp3") (py "-feat-") = false).
Proof.
  assert (Hshape : forall old new, In (old, new) replacements ->
            has old SPACE = true /\ has new SPACE = false /\
            hyphen_bounded new = true /\ plain new = true).
  { intros old new Hin. pose proof (entry_shape_In old new Hin) as Hs.
    unfold entry_shape in Hs.
    rewrite !andb_true_iff, !negb_true_iff in Hs.
    destruct Hs as [[[[H1 H2] H3] H4] H5]. repeat split; try assumption.
    pose proof replacements_plain as Hp. rewrite forallb_forall in Hp.
    exact (Hp (old, new) Hin). }
  assert (Hnone : forall filename fmt old : str,
            In old phrases -> has fmt SPACE = false ->
            contains (get_new_filename U filename fmt) old = false).
  { intros filename fmt old Hin Hfmt. unfold phrases in Hin.
    apply in_map_iff in Hin as ([old' new] & <- & Hin). cbn [fst].
    destruct (Hshape _ _ Hin) as (H1 & _).
    apply (contains_lacking _ _ SPACE); [now apply has_In|].
    apply get_new_filename_no_space. now apply has_false. }
  split; [|split; [|split; [|split]]].
  - intros before after old new title id ext fmt HU Htable Hid Hext Hlen H.
    assert (Hin : In (old, new) replacements)
      by (rewrite Htable, in_app_iff; right; now left).
    destruct (Hshape _ _ Hin) as (H1 & H3 & H4 & H5).
    change (py "[" ++ id ++ py "]." ++ ext)
      with (LBRACKET :: id ++ RBRACKET :: PERIOD :: ext).
    split.
    + apply replacement_reaches_result; try assumption.
      unfold apply_replacements. rewrite Htable, apply_entries_app.
      change (apply_entries ((old, new) :: after) (apply_entries before title))
        with (apply_entries after (replace (apply_entries before title) old new)).
      apply later_entries_keep; try assumption.
      * pose proof replacements_shape as Hall. rewrite Htable, forallb_app in Hall.
        apply andb_true_iff in Hall as [_ Hall]. cbn [forallb] in Hall.
        now apply andb_true_iff in Hall as [_ Hall].
      * apply replace_contains_new; [|assumption]. intros ->. discriminate.
    + apply Hnone. unfold phrases. apply in_map_iff. now exists (old, new).
  - intros before after old new title id ext Htable Hid Hext H Hbefore.
    assert (Hin : In (old, new) replacements)
      by (rewrite Htable, in_app_iff; right; now left).
    rewrite (earlier_entries_absent before title Hbefore).
    pose proof replacements_phrases_guarded as Hg. rewrite forallb_forall in Hg.
    specialize (Hg (old, new) Hin). cbn beta iota in Hg.
    apply andb_true_iff in Hg as [Hg Hs].
    apply (phrase_in_title title (id ++ RBRACKET :: PERIOD :: ext) old Hs Hg);
      [|exact H].
    destruct (id_safe_spec id Hid) as [_ Hid2].
    destruct (id_safe_spec ext Hext) as [_ Hext2].
    intros Hsp. apply in_app_iff in Hsp as [Hsp | [Hsp | [Hsp | Hsp]]].
    + revert Hsp. apply Hid2. now left.
    + discriminate Hsp.
    + discriminate Hsp.
    + revert Hsp. apply Hext2. now left.
  - exact Hnone.
  - intros old new s. apply replace_absent.
  - split; [vm_compute; reflexivity|]. split; vm_compute; reflexivity.
Qed.

Lemma C4_replacement_table_coverage_witness :
  Str.contains
    (get_new_filename basic_latin
       (ytdlp_title ++ py "[" ++ py "UYIAfiVGluk" ++ py "]." ++ py "webm") (py "mp3"))
    (py "-feat-") = true /\
  Str.contains
    (get_new_filename basic_latin
       (ytdlp_title ++ py "[" ++ py "UYIAfiVGluk" ++ py "]." ++ py "webm") (py "mp3"))
    (py " feat. ") = false.
Proof.
  destruct (proj1 (C4_replacement_table_coverage basic_latin)
              (firstn 8 replacements) (skipn 9 replacements)
              (py " feat. ") (py "-feat-") ytdlp_title (py "UYIAfiVGluk") (py "webm")
              (py "mp3") basic_latin_fixes_plain eq_refl eq_refl eq_refl eq_refl eq_refl)
    as [H1 H2].
  split; [exact H1|]. apply H2. reflexivity.
Defined.

(** C4, as stated, fails.  [Song feat. Artists.mp4] contains [" feat. "],
    and the 16-character split puts ["__"] inside the replacement: the
    result does not contain [-feat-].  In [One Part feat. Two] the entry of
    [" Part "] takes the space [" feat. "] starts with, and [-feat-] never
    appears. *)
Lemma C4_counterexample :
  In (py " feat. ", py "-feat-") replacements /\
  Str.contains (py "Song feat. Artists.mp4") (py " feat. ") = true /\
  (forall U : UnicodeData,
      get_new_filename U (py "Song feat. Artists.mp4") (py "mp3")
      = py "song-__feat-Artists.mp3" /\
      Str.contains (get_new_filename U (py "Song feat. Artists.mp4") (py "mp3"))
                   (py "-feat-") = false) /\
  Str.contains (py "One Part feat. Two") (py " feat. ") = true /\
  apply_replacements (py "One Part feat. Two") = py "One-feat. Two" /\
  (forall U : UnicodeData,
      Str.contains (get_new_filename U (py "One Part feat. Two") (py "mp3"))
                   (py "-feat-") = false).
Proof.
  split.
  { unfold replacements. do 8 right. left. reflexivity. }
  split; [vm_compute; reflexivity|].
  split; [intros U; split; vm_compute; reflexivity|].
  split; [vm_compute; reflexivity|].
  split; [vm_compute; reflexivity|].
  intros U. vm_compute. reflexivity.
Qed.

(** C5. On a string in which none of the table's phrases occurs, a second
    pass of the replacement table gives what the first pass gave. *)
Theorem C5_replacement_pass_idempotent (s : str) :
  forallb (fun old => negb (Str.contains s old)) phrases = true ->
  apply_replacements (apply_replacements s) = apply_replacements s.
Proof.
  intros H. now rewrite !(apply_replacements_absent s H).
Qed.

Lemma C5_replacement_pass_idempotent_witness :
  apply_replacements (apply_replacements (py "artist-song__UYIAfiVGluk.mp3"))
  = apply_replacements (py "artist-song__UYIAfiVGluk.mp3").
Proof.
  apply (C5_replacement_pass_idempotent (py "artist-song__UYIAfiVGluk.mp3")).
  vm_compute. reflexivity.
Defined.

(** C6. A record returned by [convert_to_mp3] has [successfully_converted]
    [True] and [error_code] [None], and none of the documented error codes
    is in it; the method returns such a record whenever the shell call
    returns, whatever the exit status.  (The method returns nothing only
    when [subprocess.run] itself raises: that error is passed on.) *)
Theorem C6_conversion_always_reports_success {W} (U : UnicodeData) (E : env W)
    (w : W) (filename : str) :
  let answer :=
    fst (subprocess_run E
           (command_string filename (get_new_filename U filename (py "mp3"))) w) in
  let reports_success (record : gmap (list N) value) :=
    record !! py "successfully_converted" = Some (VBool true) /\
    record !! py "error_code" = Some VNone /\
    Forall (fun code => record !! py "error_code" <> Some (VStr code))
           documented_error_codes in
  (forall status : Z, answer = inr status ->
     exists record,
       result (run E (convert_to_mp3 U filename) w) = inr record /\
       reports_success record)
  /\ (forall record,
        result (run E (convert_to_mp3 U filename) w) = inr record ->
        reports_success record)
  /\ (forall e, answer = inl e ->
        result (run E (convert_to_mp3 U filename) w) = inl e).
Proof.
  intros answer reports_success. subst answer reports_success. cbv beta.
  assert (Hret : forall status : Z,
             fst (subprocess_run E
                    (command_string filename (get_new_filename U filename (py "mp3"))) w)
             = inr status ->
             exists record,
               result (run E (convert_to_mp3 U filename) w) = inr record /\
               record !! py "successfully_converted" = Some (VBool true) /\
               record !! py "error_code" = Some VNone /\
               Forall (fun code => record !! py "error_code" <> Some (VStr code))
                      documented_error_codes).
  { intros status Hs.
    destruct (convert_to_mp3_returns U E w filename status Hs)
      as (record & Hr & _ & _ & Hsucc & Herr).
    exists record. split; [exact Hr|]. split; [exact Hsucc|]. split; [exact Herr|].
    rewrite Herr. repeat constructor; discriminate. }
  split; [exact Hret|]. split.
  - intros record Hr.
    destruct (convert_to_mp3_returned U E w filename record Hr) as (status & Hs).
    destruct (Hret status Hs) as (record' & Hr' & H).
    rewrite Hr in Hr'. injection Hr' as <-. exact H.
  - intros e. apply convert_to_mp3_raises.
Qed.

Lemma C6_conversion_always_reports_success_witness :
  exists record,
    result (run (fixed_env None 1 VNone []) (convert_to_mp3 basic_latin ytdlp_name) tt)
    = inr record /\
    record !! py "successfully_converted" = Some (VBool true) /\
    record !! py "error_code" = Some VNone.
Proof.
  destruct (proj1 (C6_conversion_always_reports_success basic_latin
                     (fixed_env None 1 VNone []) tt ytdlp_name) 1%Z eq_refl)
    as (record & Hr & Hs & He & _).
  exists record. split; [exact Hr|]. split; [exact Hs | exact He].
Defined.

(** C7 (amended). [convert_to_mp3] makes one call, the shell command
    [ffmpeg -i "<source>" -vn -ab 128k -ar 44100 -y "<target>"] with
    [<target>] the value of [get_new_filename(filename, "mp3")] and the two
    names put between the quotes as they are.  When that call returns, the
    method returns a record whose [new_filename] is the target and whose
    [original_filename] is the input; when it raises, the method raises the
    same error and returns no record. *)
Theorem C7_convert_to_mp3_contract {W} (U : UnicodeData) (E : env W)
    (w : W) (filename : str) :
  let target := get_new_filename U filename (py "mp3") in
  let command :=
    py "ffmpeg -i " ++ [DQUOTE] ++ filename ++ [DQUOTE]
    ++ py " -vn -ab 128k -ar 44100 -y " ++ [DQUOTE] ++ target ++ [DQUOTE] in
  calls (run E (convert_to_mp3 U filename) w) = [CallSubprocessRun command]
  /\ (forall status : Z, fst (subprocess_run E command w) = inr status ->
        exists record,
          result (run E (convert_to_mp3 U filename) w) = inr record /\
          record !! py "new_filename" = Some (VStr target) /\
          record !! py "original_filename" = Some (VStr filename))
  /\ (forall record,
        result (run E (convert_to_mp3 U filename) w) = inr record ->
        record !! py "new_filename" = Some (VStr target) /\
        record !! py "original_filename" = Some (VStr filename))
  /\ (forall e, fst (subprocess_run E command w) = inl e ->
        result (run E (convert_to_mp3 U filename) w) = inl e).
Proof.
  intros target command. subst target command.
  change (py "ffmpeg -i " ++ [DQUOTE] ++ filename ++ [DQUOTE]
          ++ py " -vn -ab 128k -ar 44100 -y " ++ [DQUOTE]
          ++ get_new_filename U filename (py "mp3") ++ [DQUOTE])
    with (command_string filename (get_new_filename U filename (py "mp3"))).
  split; [apply convert_to_mp3_calls|].
  assert (Hret : forall status : Z,
             fst (subprocess_run E
                    (command_string filename (get_new_filename U filename (py "mp3"))) w)
             = inr status ->
             exists record,
               result (run E (convert_to_mp3 U filename) w) = inr record /\
               record !! py "new_filename"
                 = Some (VStr (get_new_filename U filename (py "mp3"))) /\
               record !! py "original_filename" = Some (VStr filename)).
  { intros status Hs.
    destruct (convert_to_mp3_returns U E w filename status Hs)
      as (record & Hr & Ho & Hn & _).
    exists record. split; [exact Hr|]. split; [exact Hn | exact Ho]. }
  split; [exact Hret|]. split.
  - intros record Hr.
    destruct (convert_to_mp3_returned U E w filename record Hr) as (status & Hs).
    destruct (Hret status Hs) as (record' & Hr' & H).
    rewrite Hr in Hr'. injection Hr' as <-. exact H.
  - intros e. apply convert_to_mp3_raises.
Qed.

Lemma C7_convert_to_mp3_contract_witness :
  exists record,
    result (run (fixed_env None 0 VNone []) (convert_to_mp3 basic_latin ytdlp_name) tt)
    = inr record /\
    record !! py "new_filename"
    = Some (VStr (py "artist-feat-other-song-and-dance__UYIAfiVGluk.mp3")).
Proof.
  destruct (proj1 (proj2 (C7_convert_to_mp3_contract basic_latin
                            (fixed_env None 0 VNone []) tt ytdlp_name)) 0%Z eq_refl)
    as (record & Hr & Hn & _).
  exists record. split; [exact Hr | exact Hn].
Defined.

(** C7, as stated, fails: on a filename with a null character
    [subprocess.run] raises [ValueError], and [convert_to_mp3] returns no
    record. *)
Lemma C7_counterexample :
  Str.has null_name 0%N = true /\
  forall U : UnicodeData,
    result (run null_checking_env (convert_to_mp3 U null_name) tt)
    = inl (ExternalError (py "ValueError")).
Proof.
  split; [vm_compute; reflexivity|].
  intros U. apply convert_to_mp3_raises. lazy. reflexivity.
Qed.

(** C8 (amended). [download_video] returns the empty dict exactly when
    yt-dlp returns [None] or an empty dict.  When it returns metadata, the
    method looks up [id], takes the first match of the glob pattern
    [*<id>*], raising [IndexError] when there is none, and returns a record
    with exactly the eight keys provided the metadata has the keys
    [filesize_approx], [title], [fulltitle] and [duration]; a key the
    metadata lacks raises [KeyError].  An error raised by yt-dlp is passed
    on. *)
Theorem C8_download_video_result {W} (E : env W) (w : W) (url : str) :
  let answer := extract_info E yd_opts url true w in
  let clock := datetime_now E (snd answer) in
  let out := result (run E (download_video url) w) in
  (out = inr ∅ <-> exists video_info, fst answer = inr video_info /\ truthy video_info = false)
  /\ (forall e, fst answer = inl e -> out = inl e)
  /\ (forall info, fst answer = inr (Some info) -> truthy (Some info) = true ->
      match info !! py "id" with
      | None => out = inl (KeyError (py "id"))
      | Some youtube_id =>
          match fst (glob_glob E (py "*" ++ format_value youtube_id ++ py "*") (snd clock)) with
          | [] => out = inl IndexError
          | filename :: _ =>
              match info !! py "filesize_approx", info !! py "title",
                    info !! py "fulltitle", info !! py "duration" with
              | Some filesize, Some title, Some fulltitle, Some duration =>
                  exists record, out = inr record /\
                    dom record = download_keys /\
                    record !! py "url" = Some (VStr url) /\
                    record !! py "filename" = Some (VStr filename) /\
                    record !! py "filesize" = Some filesize /\
                    record !! py "title" = Some title /\
                    record !! py "fulltitle" = Some fulltitle /\
                    record !! py "youtube_id" = Some youtube_id /\
                    record !! py "duration" = Some duration /\
                    record !! py "timestamp" = Some (fst clock)
              | _, _, _, _ => exists key, out = inl (KeyError key)
              end
          end
      end).
Proof.
  intros answer clock out. subst answer clock out.
  unfold run, download_video. simpl.
  destruct (extract_info E yd_opts url true w) as [[e | video_info] w1]; simpl.
  { split; [|split].
    - split; [discriminate | intros (vi & [=] & _)].
    - now intros e' [= ->].
    - discriminate. }
  destruct (datetime_now E w1) as [timestamp w2]; simpl.
  destruct video_info as [info|]; simpl.
  2:{ split; [|split]; try discriminate.
      split; [intros _; now exists None | reflexivity]. }
  destruct (bool_decide (info ≠ ∅)) eqn:Htruthy; simpl.
  2:{ split; [|split]; try discriminate.
      - split; [intros _; exists (Some info); simpl; auto | reflexivity].
      - intros info' [= <-]. congruence. }
  assert (Hno : forall (m : exn + gmap (list N) value),
             (forall d, m = inr d -> d ≠ ∅) ->
             m = inr ∅ <-> exists vi, inr (Some info) = (inr vi : exn + option (gmap (list N) value)) /\ truthy vi = false).
  { intros m Hm. split.
    - intros ->. now destruct (Hm ∅ eq_refl).
    - intros (vi & [= <-] & Hvi). simpl in Hvi. congruence. }
  unfold getitem.
  destruct (info !! py "id") as [youtube_id|] eqn:Hid; simpl.
  2:{ split; [apply Hno; discriminate|]. split; [discriminate|].
      intros info' [= <-] _. now rewrite Hid. }
  destruct (glob_glob E _ w2) as [matches w3] eqn:Hglob; simpl.
  destruct matches as [|filename rest]; simpl.
  { split; [apply Hno; discriminate|]. split; [discriminate|].
    intros info' [= <-] _. rewrite Hid, Hglob. reflexivity. }
  destruct (info !! py "filesize_approx") as [filesize|] eqn:H1; simpl.
  2:{ split; [apply Hno; discriminate|]. split; [discriminate|].
      intros info' [= <-] _. rewrite Hid, Hglob, H1. simpl. eauto. }
  destruct (info !! py "title") as [title|] eqn:H2; simpl.
  2:{ split; [apply Hno; discriminate|]. split; [discriminate|].
      intros info' [= <-] _. rewrite Hid, Hglob, H1, H2. simpl. eauto. }
  destruct (info !! py "fulltitle") as [fulltitle|] eqn:H3; simpl.
  2:{ split; [apply Hno; discriminate|]. split; [discriminate|].
      intros info' [= <-] _. rewrite Hid, Hglob, H1, H2, H3. simpl. eauto. }
  destruct (info !! py "duration") as [duration|] eqn:H4; simpl.
  2:{ split; [apply Hno; discriminate|]. split; [discriminate|].
      intros info' [= <-] _. rewrite Hid, Hglob, H1, H2, H3, H4. simpl. eauto. }
  split; [apply Hno; intros d [= <-]; apply download_record_nonempty|].
  split; [discriminate|].
  intros info' [= <-] _. rewrite Hid, Hglob, H1, H2, H3, H4. simpl.
  eexists. split; [reflexivity|]. split.
  - rewrite !dom_insert_L, dom_empty_L. reflexivity.
  - repeat split; vm_compute; reflexivity.
Qed.

Lemma C8_download_video_result_witness :
  exists record,
    result (run (fixed_env (Some full_metadata) 0 (VObj (py "1730700000.0"))
                   [py "Song [UYIAfiVGluk].webm"; py "Song [UYIAfiVGluk].mp3"])
                (download_video (py "https://www.youtube.com/watch?v=UYIAfiVGluk")) tt)
    = inr record /\
    dom record = download_keys /\
    record !! py "filename" = Some (VStr (py "Song [UYIAfiVGluk].webm")).
Proof.
  destruct (proj2 (proj2 (C8_download_video_result
              (fixed_env (Some full_metadata) 0 (VObj (py "1730700000.0"))
                 [py "Song [UYIAfiVGluk].webm"; py "Song [UYIAfiVGluk].mp3"])
              tt (py "https://www.youtube.com/watch?v=UYIAfiVGluk")))
            full_metadata eq_refl eq_refl)
    as (record & Hr & Hdom & _ & Hfile & _).
  exists record. repeat split; assumption.
Defined.

(** C8, as stated, fails: yt-dlp returns metadata without
    [filesize_approx], a file matches, and the method raises [KeyError]
    where the claim has it return a record. *)
Lemma C8_counterexample :
  truthy (Some metadata_without_filesize) = true /\
  result (run (fixed_env (Some metadata_without_filesize) 0 (VObj (py "1730700000.0"))
                 [py "Song [UYIAfiVGluk].webm"])
              (download_video (py "https://www.youtube.com/watch?v=UYIAfiVGluk")) tt)
  = inl (KeyError (py "filesize_approx")).
Proof. split; vm_compute; reflexivity. Qed.

(** C9 (amended). [batch_convert_to_mp3] and [batch_download_video] each
    return a list exactly when the single calls, run one after the other,
    each return; the list then has the length of the input and holds their
    results in order.  A single call that raises, at whatever place, ends
    the batch with its error.  When every shell call returns,
    [batch_convert_to_mp3] returns a list as long as its input. *)
Theorem C9_batch_results {W} (U : UnicodeData) (E : env W) (w : W) :
  (forall filename_list out,
      result (run E (batch_convert_to_mp3 U filename_list) w) = inr out <->
      exists w', each_returns E (convert_to_mp3 U) filename_list w out w')
  /\ (forall url_list out,
        result (run E (batch_download_video url_list) w) = inr out <->
        exists w', each_returns E download_video url_list w out w')
  /\ (forall A (f : A -> prog (gmap (list N) value)) xs out w',
        each_returns E f xs w out w' ->
        length out = length xs /\
        forall i x, xs !! i = Some x ->
          exists wi r, out !! i = Some r /\ result (run E (f x) wi) = inr r)
  /\ (forall before filename rest out w' e,
        each_returns E (convert_to_mp3 U) before w out w' ->
        result (run E (convert_to_mp3 U filename) w') = inl e ->
        result (run E (batch_convert_to_mp3 U (before ++ filename :: rest)) w) = inl e)
  /\ (forall before url rest out w' e,
        each_returns E download_video before w out w' ->
        result (run E (download_video url) w') = inl e ->
        result (run E (batch_download_video (before ++ url :: rest)) w) = inl e)
  /\ (shell_returns E ->
      forall filename_list, exists out,
        result (run E (batch_convert_to_mp3 U filename_list) w) = inr out /\
        length out = length filename_list).
Proof.
  assert (Hiff : forall A (f : A -> prog (gmap (list N) value)) xs out,
             result (run E (for_each_append f xs []) w) = inr out <->
             exists w', each_returns E f xs w out w').
  { intros A f xs out. split.
    - intros H. apply for_each_append_inv in H as (rs & -> & H). eauto.
    - intros (w' & H).
      now destruct (for_each_append_returns E _ _ w [] _ _ H) as [Hr _]. }
  split; [intros filename_list out; apply Hiff|].
  split; [intros url_list out; apply Hiff|].
  split; [|split; [|split]].
  - intros A f xs out w' H. split.
    + eapply each_returns_length; eassumption.
    + eapply each_returns_lookup; eassumption.
  - intros before filename rest out w' e Hb He. unfold batch_convert_to_mp3.
    exact (proj1 (for_each_append_abort E _ before w out w' Hb filename rest e [] He)).
  - intros before url rest out w' e Hb He. unfold batch_download_video.
    exact (proj1 (for_each_append_abort E _ before w out w' Hb url rest e [] He)).
  - intros Hshell filename_list.
    destruct (convert_each_returns U E filename_list Hshell w) as (out & w' & H).
    exists out. split.
    + apply Hiff. now exists w'.
    + eapply each_returns_length; eassumption.
Qed.

Lemma C9_batch_results_witness :
  length [py "a"; py "b"] = 2 /\
  exists wi r,
    ([∅; ∅] : list (gmap (list N) value)) !! 1 = Some r /\
    result (run (fixed_env None 0 VNone []) (download_video (py "b")) wi) = inr r.
Proof.
  assert (H : each_returns (fixed_env None 0 VNone []) download_video
                [py "a"; py "b"] tt [∅; ∅] tt)
    by (repeat constructor).
  destruct (proj1 (proj2 (proj2 (C9_batch_results basic_latin
              (fixed_env None 0 VNone []) tt))) _ download_video _ _ _ H)
    as [_ Hi].
  split; [reflexivity|]. exact (Hi 1 (py "b") eq_refl).
Defined.

(** C9, as stated, fails for both batches: with no file matching the id the
    one download of the batch raises [IndexError], and on a filename with a
    null character the one conversion of the batch raises [ValueError]; in
    either case the batch returns no list. *)
Lemma C9_counterexample :
  result (run (fixed_env (Some full_metadata) 0 (VObj (py "1730700000.0")) [])
              (batch_download_video [py "https://www.youtube.com/watch?v=UYIAfiVGluk"]) tt)
  = inl IndexError /\
  forall U : UnicodeData,
    result (run null_checking_env (batch_convert_to_mp3 U [null_name]) tt)
    = inl (ExternalError (py "ValueError")).
Proof.
  split; [vm_compute; reflexivity|].
  intros U. unfold batch_convert_to_mp3. apply for_each_append_raises.
  apply convert_to_mp3_raises. lazy. reflexivity.
Qed.

(** C10. With a sound database and a fmt that has no space, comma,
    parenthesis or square bracket, the output of [get_new_filename] has none
    of them either. *)
Theorem C10_output_free_of_unfriendly (U : UnicodeData) (filename fmt : str) :
  lower_case_sound U ->
  free_of unfriendly fmt = true ->
  free_of unfriendly (get_new_filename U filename fmt) = true.
Proof.
  intros HU Hfmt. rewrite free_of_spec in *. intros c Hc Hin.
  pose proof (proj1 (free_of_spec _ _) (cleaned_free filename) c Hc) as Hclean.
  unfold get_new_filename in Hin. rewrite replace_extension_eq in Hin.
  apply in_app_iff in Hin as [Hin | [<- | Hin]].
  - apply splitext_root_In in Hin. unfold reassembled, fix_video_code in Hin.
    rewrite !in_app_iff in Hin. destruct Hin as [Hin | [Hin | Hin]].
    + apply replace_In in Hin as [Hin | Hin].
      * apply Hclean. eapply slice_to_In, strip_In, (lower_In U); try eassumption.
        -- repeat (destruct Hc as [<- | Hc]); try contradiction; reflexivity.
        -- repeat (destruct Hc as [<- | Hc]); try contradiction; compute; intuition discriminate.
      * repeat (destruct Hc as [<- | Hc]); try contradiction;
          revert Hin; compute; intuition discriminate.
    + repeat (destruct Hc as [<- | Hc]); try contradiction;
        revert Hin; compute; intuition discriminate.
    + apply Hclean. eapply slice_from_In. eassumption.
  - repeat (destruct Hc as [Hc | Hc]); try discriminate Hc; contradiction.
  - now apply (Hfmt c).
Qed.

Lemma C10_output_free_of_unfriendly_witness :
  free_of unfriendly (get_new_filename basic_latin ytdlp_name (py "mp3")) = true.
Proof.
  apply (C10_output_free_of_unfriendly basic_latin ytdlp_name (py "mp3")).
  - exact basic_latin_sound.
  - vm_compute. reflexivity.
Defined.

(** * Further lemmas *)

(** ** Calls of [download_video] *)

Lemma download_video_calls_cases {W} (E : env W) (w : W) (url : str) :
  let answer := extract_info E yd_opts url true w in
  let clock := datetime_now E (snd answer) in
  calls (run E (download_video url) w)
  = CallExtractInfo yd_opts url true ::
    match fst answer with
    | inl _ => []
    | inr video_info =>
        CallDatetimeNow ::
        match video_info with
        | Some info =>
            if truthy video_info then
              match info !! py "id" with
              | Some youtube_id =>
                  [CallGlobGlob (py "*" ++ format_value youtube_id ++ py "*")]
              | None => []
              end
            else []
        | None => []
        end
    end.
Proof.
  intros answer clock. subst answer clock.
  unfold run, download_video. cbn [run_from].
  destruct (extract_info E yd_opts url true w) as [[e | video_info] w1];
    cbn [fst snd lift bind run_from calls app]; [reflexivity|].
  destruct (datetime_now E w1) as [timestamp w2]; cbn [fst snd].
  destruct video_info as [info|]; [|reflexivity].
  destruct (truthy (Some info)); [|reflexivity].
  unfold getitem. destruct (info !! py "id") as [youtube_id|];
    cbn [lift bind run_from calls]; [|reflexivity].
  destruct (glob_glob E _ w2) as [matches w3].
  rewrite run_from_bind. destruct matches as [|filename rest];
    cbn [first_item lift run_from result calls]; [reflexivity|].
  destruct (info !! py "filesize_approx"); cbn [lift bind run_from calls]; [|reflexivity].
  destruct (info !! py "title"); cbn [lift bind run_from calls]; [|reflexivity].
  destruct (info !! py "fulltitle"); cbn [lift bind run_from calls]; [|reflexivity].
  destruct (info !! py "duration"); cbn [lift bind run_from calls]; reflexivity.
Qed.

Lemma download_video_requests {W} (E : env W) (w : W) (url u : str) (c : call) :
  In c (calls (run E (download_video url) w)) -> requests u c -> u = url.
Proof.
  intros Hin (opts & download & ->).
  rewrite download_video_calls_cases in Hin.
  destruct Hin as [Hin | Hin]; [congruence|].
  destruct (fst (extract_info E yd_opts url true w)) as [e | [info|]];
    cbn [In] in Hin; try tauto.
  - destruct Hin as [Hin | Hin]; [discriminate|].
    destruct (truthy (Some info)); [|contradiction].
    destruct (info !! py "id"); [|contradiction].
    destruct Hin as [Hin | []]. discriminate.
  - destruct Hin as [Hin | []]. discriminate.
Qed.

Lemma batch_download_requests {W} (E : env W) (url_list : list str) :
  forall (w : W) (output : list dict) (c : call) (u : str),
    In c (calls (run E (for_each_append download_video url_list output) w)) ->
    requests u c -> In u url_list.
Proof.
  induction url_list as [|url rest IH]; intros w output c u Hin Hreq; [contradiction|].
  cbn [for_each_append] in Hin. rewrite run_bind_calls in Hin.
  destruct (result (run E (download_video url) w)) as [e | r].
  - left. symmetry. eapply download_video_requests; eassumption.
  - apply in_app_iff in Hin as [Hin | Hin].
    + left. symmetry. eapply download_video_requests; eassumption.
    + right. eapply IH; eassumption.
Qed.

(** ** Results of [download_video] *)

Lemma download_video_no_metadata {W} (E : env W) (w : W) (url : str) video_info :
  fst (extract_info E yd_opts url true w) = inr video_info ->
  truthy video_info = false ->
  result (run E (download_video url) w) = inr ∅.
Proof.
  unfold run, download_video. cbn [run_from].
  destruct (extract_info E yd_opts url true w) as [r w1]. cbn [fst].
  intros -> Ht. cbn [lift bind run_from].
  destruct (datetime_now E w1) as [timestamp w2].
  destruct video_info as [info|]; [|reflexivity].
  now rewrite Ht.
Qed.


(** * Properties beyond the claims *)

(** ** The normaliser *)

(** For a name as yt-dlp writes it, [title [id].ext], with an id and an
    extension that have no white space, comma, parenthesis, bracket, period
    or slash and make 16 characters with the period between them (an
    11-character id and a 4-character extension, say), the id reaches the
    result unchanged: the result is the head, stripped, lower-cased and
    hyphenated, then ["__"], the id, a period and fmt.  Nothing is asked of
    the title or of fmt. *)
Theorem ytdlp_name_keeps_id (U : UnicodeData) (title id ext fmt : str) :
  id_safe id = true -> id_safe ext = true ->
  length id + length ext = 15 ->
  exists head,
    cleaned (title ++ py "[" ++ id ++ py "]." ++ ext) = head ++ id ++ py "." ++ ext /\
    get_new_filename U (title ++ py "[" ++ id ++ py "]." ++ ext) fmt
    = Str.replace (lower U (Str.strip head)) (py " ") (py "-")
      ++ py "__" ++ id ++ py "." ++ fmt.
Proof.
  intros Hid Hext Hlen.
  change (py "[" ++ id ++ py "]." ++ ext) with (LBRACKET :: id ++ RBRACKET :: PERIOD :: ext).
  change (py "." ++ ext) with (PERIOD :: ext).
  destruct (cleaned_bracketed_id title id ext Hid Hext) as (head & Hclean).
  exists head. split; [exact Hclean|].
  destruct (id_safe_spec id Hid) as [_ Hid2].
  destruct (id_safe_spec ext Hext) as [_ Hext2].
  unfold get_new_filename, reassembled, fix_video_code. rewrite Hclean.
  change (-16)%Z with (- Z.of_nat 16)%Z.
  rewrite slice_to_last, slice_from_last by lia.
  assert (Hl : length (head ++ id ++ PERIOD :: ext) - 16 = length head).
  { rewrite !length_app. cbn [length]. lia. }
  rewrite Hl, take_app_length, drop_app_length.
  rewrite replace_extension_eq.
  rewrite splitext_reassembled.
  - cbn [fst]. now rewrite <- !app_assoc.
  - apply Hid2. cbn [In]. auto 10.
  - apply Hext2. cbn [In]. auto 10.
  - apply Hext2. cbn [In]. auto 10.
Qed.

Lemma ytdlp_name_keeps_id_witness :
  exists head,
    cleaned (py "Artist - Song (Official Video) " ++ py "[" ++ py "UYIA-iVG_uk"
             ++ py "]." ++ py "webm")
    = head ++ py "UYIA-iVG_uk" ++ py "." ++ py "webm" /\
    get_new_filename basic_latin
      (py "Artist - Song (Official Video) " ++ py "[" ++ py "UYIA-iVG_uk"
       ++ py "]." ++ py "webm") (py "mp3")
    = Str.replace (lower basic_latin (Str.strip head)) (py " ") (py "-")
      ++ py "__" ++ py "UYIA-iVG_uk" ++ py "." ++ py "mp3".
Proof.
  apply (ytdlp_name_keeps_id basic_latin (py "Artist - Song (Official Video) ")
           (py "UYIA-iVG_uk") (py "webm") (py "mp3")); reflexivity.
Defined.

(** For a filename without a slash and a fmt without period or slash,
    [os.path.splitext] takes the result apart into the root found in the
    reassembled name and the period with fmt; so replacing the extension of
    the result gives what [get_new_filename] gives for the new extension. *)
Theorem result_extension_round_trip (U : UnicodeData) (filename fmt : str) :
  Str.has filename SLASH = false ->
  free_of [PERIOD; SLASH] fmt = true ->
  splitext (get_new_filename U filename fmt)
  = (fst (splitext (reassembled U filename)), py "." ++ fmt)
  /\ forall fmt',
       replace_extension (get_new_filename U filename fmt) fmt'
       = get_new_filename U filename fmt'.
Proof.
  intros Hf Hfmt. apply has_false in Hf. rewrite free_of_spec in Hfmt.
  assert (Hsplit : splitext (get_new_filename U filename fmt)
                   = (fst (splitext (reassembled U filename)), PERIOD :: fmt)).
  { unfold get_new_filename. rewrite replace_extension_eq.
    apply splitext_root_ext.
    - apply splitext_root_name_char, reassembled_name_char. exact Hf.
    - apply Hfmt. cbn [In]. auto.
    - apply Hfmt. cbn [In]. auto. }
  split; [exact Hsplit|].
  intros fmt'. rewrite (replace_extension_eq (get_new_filename U filename fmt)).
  rewrite Hsplit. reflexivity.
Qed.

Lemma result_extension_round_trip_witness :
  splitext (get_new_filename basic_latin ytdlp_name (py "mp3"))
  = (fst (splitext (reassembled basic_latin ytdlp_name)), py "." ++ py "mp3")
  /\ forall fmt',
       replace_extension (get_new_filename basic_latin ytdlp_name (py "mp3")) fmt'
       = get_new_filename basic_latin ytdlp_name fmt'.
Proof.
  apply (result_extension_round_trip basic_latin ytdlp_name (py "mp3")).
  - vm_compute. reflexivity.
  - vm_compute. reflexivity.
Defined.

(** A name with no space, comma, parenthesis or square bracket and no white
    space at its ends passes the replacement table and the clean-up
    unchanged: only the 16-character split and the extension step act on
    it. *)
Theorem clean_name_is_kept (U : UnicodeData) (filename fmt : str) :
  free_of unfriendly filename = true ->
  Str.strip filename = filename ->
  cleaned filename = filename /\
  get_new_filename U filename fmt
  = fst (splitext (fix_video_code U filename)) ++ py "." ++ fmt.
Proof.
  intros Hfree Hstrip. rewrite free_of_spec in Hfree.
  assert (Hsp : ~ In SPACE filename) by (apply Hfree; unfold unfriendly; cbn [In]; auto).
  assert (Hclean : cleaned filename = filename).
  { unfold cleaned. rewrite (apply_replacements_absent filename (phrases_absent _ Hsp)).
    unfold remove_spaces_and_punctuation. cbv zeta.
    rewrite sub_space_runs_absent by exact Hsp. rewrite Hstrip.
    change (py ",") with [COMMA]. change (py "(") with [LPAREN].
    change (py ")") with [RPAREN]. change (py "[") with [LBRACKET].
    change (py "]") with [RBRACKET]. change (py " ") with [SPACE].
    rewrite !(replace_char_absent filename) by (apply Hfree; unfold unfriendly; cbn [In]; auto 10).
    rewrite (replace_absent filename (py " - "))
      by (apply (contains_lacking _ _ SPACE); [now left | exact Hsp]).
    rewrite (replace_absent filename [SPACE; EN_DASH; SPACE])
      by (apply (contains_lacking _ _ SPACE); [now left | exact Hsp]).
    apply replace_char_absent. exact Hsp. }
  split; [exact Hclean|].
  unfold get_new_filename, reassembled. now rewrite Hclean.
Qed.

Lemma clean_name_is_kept_witness :
  cleaned (py "artist-song__UYIAfiVGluk.mp3") = py "artist-song__UYIAfiVGluk.mp3" /\
  get_new_filename basic_latin (py "artist-song__UYIAfiVGluk.mp3") (py "mp3")
  = fst (splitext (fix_video_code basic_latin (py "artist-song__UYIAfiVGluk.mp3")))
    ++ py "." ++ py "mp3".
Proof.
  apply (clean_name_is_kept basic_latin (py "artist-song__UYIAfiVGluk.mp3") (py "mp3"));
    vm_compute; reflexivity.
Defined.

(** With a sound database, [get_new_filename] brings in no ASCII character
    of its own other than lower-case letters, the hyphen, the underscore and
    the period: any other ASCII character of the result was in the filename
    or in fmt. *)
Theorem result_brings_in_little (U : UnicodeData) (filename fmt : str) (x : char) :
  lower_case_sound U ->
  In x (get_new_filename U filename fmt) ->
  (x < 128)%N -> brought_in x = false ->
  In x filename \/ In x fmt.
Proof. apply get_new_filename_In. Qed.

Lemma result_brings_in_little_witness :
  In DQUOTE (py "Artist " ++ [DQUOTE] ++ py "Song" ++ [DQUOTE] ++ py " [UYIAfiVGluk].webm")
  \/ In DQUOTE (py "mp3").
Proof.
  apply (result_brings_in_little basic_latin
           (py "Artist " ++ [DQUOTE] ++ py "Song" ++ [DQUOTE] ++ py " [UYIAfiVGluk].webm")
           (py "mp3") DQUOTE).
  - exact basic_latin_sound.
  - vm_compute. auto 20.
  - reflexivity.
  - reflexivity.
Defined.

(** With a sound database and a source name without double quote, the
    shell command of [convert_to_mp3] has exactly four double quotes, those
    around the two names: the target has none. *)
Theorem convert_command_quotes {W} (U : UnicodeData) (E : env W) (w : W)
    (filename : str) :
  lower_case_sound U ->
  Str.has filename DQUOTE = false ->
  exists command,
    calls (run E (convert_to_mp3 U filename) w) = [CallSubprocessRun command] /\
    Str.has (get_new_filename U filename (py "mp3")) DQUOTE = false /\
    count_occ N.eq_dec command DQUOTE = 4.
Proof.
  intros HU Hf. apply has_false in Hf.
  assert (Ht : ~ In DQUOTE (get_new_filename U filename (py "mp3"))).
  { intros H. apply (get_new_filename_In U) in H; try assumption; try reflexivity.
    destruct H as [H | H]; [contradiction|].
    revert H. vm_compute. intuition discriminate. }
  exists (command_string filename (get_new_filename U filename (py "mp3"))).
  split; [apply convert_to_mp3_calls|]. split; [now apply has_false|].
  unfold command_string. rewrite !count_occ_app.
  rewrite (proj1 (count_occ_not_In N.eq_dec filename DQUOTE) Hf).
  rewrite (proj1 (count_occ_not_In N.eq_dec _ DQUOTE) Ht).
  reflexivity.
Qed.

Lemma convert_command_quotes_witness :
  exists command,
    calls (run (fixed_env None 1 VNone []) (convert_to_mp3 basic_latin ytdlp_name) tt)
    = [CallSubprocessRun command] /\
    Str.has (get_new_filename basic_latin ytdlp_name (py "mp3")) DQUOTE = false /\
    count_occ N.eq_dec command DQUOTE = 4.
Proof.
  apply (convert_command_quotes basic_latin (fixed_env None 1 VNone []) tt ytdlp_name).
  - exact basic_latin_sound.
  - vm_compute. reflexivity.
Defined.

(** The split takes 16 characters whatever the extension.  For a name
    [title [id].ext] without a slash whose id, period and extension make
    [16 - k] characters (a 3-character extension: [k = 1]), the last [k]
    characters of the cleaned-up title end behind ["__"], before the id,
    and are not lower-cased. *)
Theorem ytdlp_name_short_extension (U : UnicodeData) (title id ext fmt : str)
    (k : nat) :
  Str.has title SLASH = false ->
  id_safe id = true -> id_safe ext = true ->
  length id + length ext + k = 15 ->
  exists head,
    cleaned (title ++ py "[" ++ id ++ py "]." ++ ext) = head ++ id ++ py "." ++ ext /\
    get_new_filename U (title ++ py "[" ++ id ++ py "]." ++ ext) fmt
    = Str.replace (lower U (Str.strip (take (length head - k) head))) (py " ") (py "-")
      ++ py "__" ++ drop (length head - k) head ++ id ++ py "." ++ fmt.
Proof.
  intros Htitle Hid Hext Hlen. apply has_false in Htitle.
  change (py "[" ++ id ++ py "]." ++ ext) with (LBRACKET :: id ++ RBRACKET :: PERIOD :: ext).
  change (py "." ++ ext) with (PERIOD :: ext).
  destruct (cleaned_bracketed_id title id ext Hid Hext) as (head & Hclean).
  exists head. split; [exact Hclean|].
  destruct (id_safe_spec id Hid) as [_ Hid2].
  destruct (id_safe_spec ext Hext) as [_ Hext2].
  assert (Hslash : ~ In SLASH (head ++ id ++ PERIOD :: ext)).
  { rewrite <- Hclean. apply cleaned_no_slash.
    intros H. apply in_app_iff in H as [H | [H | H]]; [contradiction | discriminate H |].
    apply in_app_iff in H as [H | [H | [H | H]]].
    - revert H. apply Hid2. cbn [In]. auto 10.
    - discriminate H.
    - discriminate H.
    - revert H. apply Hext2. cbn [In]. auto 10. }
  unfold get_new_filename, reassembled, fix_video_code. rewrite Hclean.
  change (-16)%Z with (- Z.of_nat 16)%Z.
  rewrite slice_to_last, slice_from_last by lia.
  assert (Hl : length (head ++ id ++ PERIOD :: ext) - 16 = length head - k).
  { rewrite !length_app. cbn [length]. lia. }
  rewrite Hl, take_app_le, drop_app_le by lia.
  rewrite replace_extension_eq.
  rewrite (app_assoc (drop _ head) id).
  rewrite splitext_reassembled.
  - cbn [fst]. now rewrite <- !app_assoc.
  - intros H. apply Hslash. apply in_app_iff in H as [H | H].
    + rewrite in_app_iff. left.
      rewrite <- (take_drop (length head - k) head), in_app_iff. now right.
    + rewrite !in_app_iff. auto.
  - apply Hext2. cbn [In]. auto 10.
  - apply Hext2. cbn [In]. auto 10.
Qed.

Lemma ytdlp_name_short_extension_witness :
  exists head,
    cleaned (py "Artist - Song " ++ py "[" ++ py "UYIAfiVGluk" ++ py "]." ++ py "mp4")
    = head ++ py "UYIAfiVGluk" ++ py "." ++ py "mp4" /\
    get_new_filename basic_latin
      (py "Artist - Song " ++ py "[" ++ py "UYIAfiVGluk" ++ py "]." ++ py "mp4") (py "mp3")
    = Str.replace (lower basic_latin (Str.strip (take (length head - 1) head)))
                  (py " ") (py "-")
      ++ py "__" ++ drop (length head - 1) head ++ py "UYIAfiVGluk" ++ py "." ++ py "mp3".
Proof.
  apply (ytdlp_name_short_extension basic_latin (py "Artist - Song ")
           (py "UYIAfiVGluk") (py "mp4") (py "mp3") 1); reflexivity.
Defined.

(** ** The glue code *)

(** As long as the conversions return, which they do whenever the shell
    call returns, whatever the exit status, [batch_convert_to_mp3] runs the
    encoder once for each filename of its input, in input order, and makes
    no other call.  When the shell call of a file raises, the batch raises
    that error: the encoder has been run for the files up to that one and
    is run for none behind it. *)
Theorem batch_convert_runs_every_file {W} (U : UnicodeData) (E : env W) (w : W)
    (before : list str) (out : list dict) (w' : W) :
  each_returns E (convert_to_mp3 U) before w out w' ->
  (result (run E (batch_convert_to_mp3 U before) w) = inr out /\
   calls (run E (batch_convert_to_mp3 U before) w) = map (conversion_call U) before)
  /\ (forall filename rest e,
        fst (subprocess_run E
               (command_string filename (get_new_filename U filename (py "mp3"))) w')
        = inl e ->
        result (run E (batch_convert_to_mp3 U (before ++ filename :: rest)) w) = inl e /\
        calls (run E (batch_convert_to_mp3 U (before ++ filename :: rest)) w)
        = map (conversion_call U) (before ++ [filename]))
  /\ (shell_returns E ->
      forall filename_list,
        calls (run E (batch_convert_to_mp3 U filename_list) w)
        = map (conversion_call U) filename_list).
Proof.
  intros Hbefore. unfold batch_convert_to_mp3. split; [|split].
  - split.
    + exact (proj1 (for_each_append_returns E _ before w [] out w' Hbefore)).
    + exact (batch_convert_calls U E before w out w' Hbefore []).
  - intros filename rest e He.
    pose proof (convert_to_mp3_raises U E w' filename e He) as Hraise.
    destruct (for_each_append_abort E _ before w out w' Hbefore filename rest e []
                Hraise) as [H1 H2].
    split; [exact H1|].
    rewrite H2, (batch_convert_calls U E before w out w' Hbefore []),
      convert_to_mp3_calls, map_app.
    reflexivity.
  - intros Hshell filename_list.
    destruct (convert_each_returns U E filename_list Hshell w) as (out' & w'' & H).
    exact (batch_convert_calls U E filename_list w out' w'' H []).
Qed.

Lemma batch_convert_runs_every_file_witness :
  result (run null_checking_env
            (batch_convert_to_mp3 basic_latin
               ([ytdlp_name] ++ null_name :: [scenario_name])) tt)
  = inl (ExternalError (py "ValueError")) /\
  calls (run null_checking_env
           (batch_convert_to_mp3 basic_latin
              ([ytdlp_name] ++ null_name :: [scenario_name])) tt)
  = map (conversion_call basic_latin) ([ytdlp_name] ++ [null_name]).
Proof.
  assert (H1 : exists record,
             each_returns null_checking_env (convert_to_mp3 basic_latin)
               [ytdlp_name] tt [record] tt).
  { eexists. econstructor; [vm_compute; reflexivity|].
    destruct (world (run null_checking_env (convert_to_mp3 basic_latin ytdlp_name) tt)).
    constructor. }
  destruct H1 as (record & H1).
  apply (proj1 (proj2 (batch_convert_runs_every_file basic_latin null_checking_env tt
                         [ytdlp_name] [record] tt H1))
           null_name [scenario_name] (ExternalError (py "ValueError"))).
  lazy. reflexivity.
Defined.

(** [download_video] asks yt-dlp once, with format best and downloading
    switched on; it reads the clock only when yt-dlp has returned, globs at
    most once, for the pattern made of the id between two stars, and never
    runs a shell command. *)
Theorem download_video_calls {W} (E : env W) (w : W) (url : str) :
  let answer := extract_info E yd_opts url true w in
  calls (run E (download_video url) w)
  = CallExtractInfo [(py "format", VStr (py "best")); (py "get_info", VBool true)]
      url true ::
    match fst answer with
    | inl _ => []
    | inr video_info =>
        CallDatetimeNow ::
        match video_info with
        | Some info =>
            if truthy video_info then
              match info !! py "id" with
              | Some youtube_id =>
                  [CallGlobGlob (py "*" ++ format_value youtube_id ++ py "*")]
              | None => []
              end
            else []
        | None => []
        end
    end
  /\ forall command, ~ In (CallSubprocessRun command) (calls (run E (download_video url) w)).
Proof.
  intros answer. split; [apply download_video_calls_cases|].
  intros command Hin. rewrite download_video_calls_cases in Hin.
  destruct Hin as [Hin | Hin]; [discriminate|].
  destruct (fst (extract_info E yd_opts url true w)) as [e | [info|]];
    cbn [In] in Hin; try tauto.
  - destruct Hin as [Hin | Hin]; [discriminate|].
    destruct (truthy (Some info)); [|contradiction].
    destruct (info !! py "id"); [|contradiction].
    destruct Hin as [Hin | []]. discriminate.
  - destruct Hin as [Hin | []]. discriminate.
Qed.

(** When the downloads of the first URLs return and the next one raises,
    [batch_download_video] raises that error; the calls made are those of
    the downloads so far, and no URL behind the failing one is requested
    from yt-dlp. *)
Theorem batch_download_stops_at_error {W} (E : env W) (w : W)
    (before : list str) (url : str) (rest : list str)
    (out : list dict) (w' : W) (e : exn) :
  each_returns E download_video before w out w' ->
  result (run E (download_video url) w') = inl e ->
  result (run E (batch_download_video (before ++ url :: rest)) w) = inl e /\
  calls (run E (batch_download_video (before ++ url :: rest)) w)
  = calls (run E (batch_download_video before) w)
    ++ calls (run E (download_video url) w') /\
  forall u c, ~ In u before -> u <> url ->
    In c (calls (run E (batch_download_video (before ++ url :: rest)) w)) ->
    ~ requests u c.
Proof.
  intros Hbefore He.
  unfold batch_download_video.
  destruct (for_each_append_abort E download_video before w out w' Hbefore
              url rest e [] He) as [H1 H2].
  split; [exact H1|]. split; [exact H2|].
  intros u c Hu1 Hu2 Hin Hreq.
  rewrite H2 in Hin. apply in_app_iff in Hin as [Hin | Hin].
  - apply Hu1. eapply batch_download_requests; eassumption.
  - apply Hu2. eapply download_video_requests; eassumption.
Qed.

Lemma batch_download_stops_at_error_witness :
  result (run one_file_env
            (batch_download_video ([py "u1"] ++ py "u2" :: [py "u3"])) 0)
  = inl IndexError /\
  forall c,
    In c (calls (run one_file_env
                   (batch_download_video ([py "u1"] ++ py "u2" :: [py "u3"])) 0)) ->
    ~ requests (py "u3") c.
Proof.
  assert (H1 : exists record,
             each_returns one_file_env download_video [py "u1"] 0 [record] 1).
  { eexists. econstructor; [vm_compute; reflexivity|]. vm_compute. constructor. }
  destruct H1 as (record & H1).
  assert (H2 : result (run one_file_env (download_video (py "u2")) 1) = inl IndexError)
    by (vm_compute; reflexivity).
  destruct (batch_download_stops_at_error one_file_env 0 [py "u1"] (py "u2")
              [py "u3"] [record] 1 IndexError H1 H2) as (Hr & _ & Hc).
  split; [exact Hr|].
  intros c. apply Hc.
  - intros [H | []]. discriminate H.
  - discriminate.
Defined.

(** When yt-dlp returns no metadata, the script prints the empty dict and
    ends with [KeyError] on [filename]: it has asked yt-dlp and read the
    clock, and the encoder is never run. *)
Theorem main_without_metadata {W} (U : UnicodeData) (E : env W) (w : W)
    (video_info : option dict) :
  fst (extract_info E yd_opts main_url true w) = inr video_info ->
  truthy video_info = false ->
  ended (main U E w) = inl (KeyError (py "filename")) /\
  printed (main U E w) = [∅] /\
  calls_made (main U E w) = [CallExtractInfo yd_opts main_url true; CallDatetimeNow].
Proof.
  intros Hanswer Htruthy. unfold main.
  rewrite (download_video_no_metadata E w main_url video_info Hanswer Htruthy).
  change (getitem ∅ (py "filename")) with (@inl exn value (KeyError (py "filename"))).
  cbn [ended printed calls_made].
  split; [reflexivity|]. split; [reflexivity|].
  rewrite download_video_calls_cases, Hanswer.
  destruct video_info as [info|]; [|reflexivity].
  now rewrite Htruthy.
Qed.

Lemma main_without_metadata_witness :
  ended (main basic_latin (fixed_env None 0 VNone []) tt) = inl (KeyError (py "filename")) /\
  printed (main basic_latin (fixed_env None 0 VNone []) tt) = [∅] /\
  calls_made (main basic_latin (fixed_env None 0 VNone []) tt)
  = [CallExtractInfo yd_opts main_url true; CallDatetimeNow].
Proof.
  apply (main_without_metadata basic_latin (fixed_env None 0 VNone []) tt None);
    reflexivity.
Defined.


